(** * Leaflet.PolylineOffset: the offset-and-join geometry engine

    A shallow embedding of [src/leaflet.polylineoffset.js] and the properties
    of its three stages: the segment offsetter ([offsetPointLine]), the join
    resolver ([circularArc], [joinLineSegments]) and the seam cutter
    ([cutInnerAngles]).

    Modelling choices.
    - JavaScript numbers are kept abstract behind the class [Number]: the code
      only adds, subtracts, multiplies, divides and compares them.  The
      general statements hold for every instance; the instance the code runs
      on is binary64 ([float_Number]), with its rounding, its infinities,
      NaN and the two zeros, and every concrete run below is a run on
      binary64.
    - [Math.PI], [Math.cos], [Math.sin] and [Math.atan2] belong to the host;
      they are the class [MathLib].  ECMAScript leaves the three functions
      implementation-approximated; the instance used for concrete runs
      ([float_MathLib]) follows the algorithms of fdlibm.
    - A point is an object: it has an identity besides its coordinates, and
      the seam cutter compares points with [==], which on objects is identity.
      Every [{x: .., y: ..}] literal of the source allocates a new identity;
      the allocator is the state of the monad [JS].
    - A slot of a segment holds a point or [null] ([intersection] may return
      [null]); reading a coordinate of [null], or an element of [undefined],
      throws a [TypeError].
    - The seam cutter writes into the segment arrays it is given.  It is
      modelled twice: on a list of slot pairs, which is exact when the
      arrays are pairwise distinct objects, and on a heap of arrays
      ([cutInnerAnglesShared]), where one array may stand at several
      indices.
    - Loops whose termination depends on the numbers take fuel; running out
      of it is the outcome [Diverge].
    - The hook [_projectLatlngs] that the source installs on [L.Polyline]
      takes what it reaches in Leaflet (the projection of the map,
      [L.Bounds.extend], [L.LineUtil.simplify]) as parameters; its argument
      is a tree of rings of geographic positions. *)

From Stdlib Require Import ZArith List Bool Arith Lia.
From Stdlib Require Import Floats QArith.
Import ListNotations.
Close Scope Q_scope.

(** ** Numbers *)

Class Number (num : Type) : Type := {
  nlit : Z -> num;             (* an integer literal *)
  nadd : num -> num -> num;    (* + *)
  nsub : num -> num -> num;    (* - *)
  nmul : num -> num -> num;    (* * *)
  ndiv : num -> num -> num;    (* / *)
  neqb : num -> num -> bool;   (* === *)
  nltb : num -> num -> bool    (* < *)
}.

(** The four members of the host's [Math] object that the source uses. *)
Class MathLib (num : Type) : Type := {
  Math_PI : num;
  Math_cos : num -> num;
  Math_sin : num -> num;
  Math_atan2 : num -> num -> num
}.

Declare Scope js_scope.
Delimit Scope js_scope with js.
Infix "+" := nadd : js_scope.
Infix "-" := nsub : js_scope.
Infix "*" := nmul : js_scope.
Infix "/" := ndiv : js_scope.
Infix "===" := neqb (at level 70, no associativity) : js_scope.
Infix "<?" := nltb : js_scope.
Notation "a >? b" := (nltb b a) (at level 70, no associativity) : js_scope.

(** ** Outcomes and the allocation monad *)

Inductive outcome (A : Type) : Type :=
| Ok (a : A) (next : nat)
| TypeError
| Diverge.

Arguments Ok {A} a next.
Arguments TypeError {A}.
Arguments Diverge {A}.

(** A computation runs from the next free object identity. *)
Definition JS (A : Type) : Type := nat -> outcome A.

Definition ret {A : Type} (a : A) : JS A := fun n => Ok a n.

Definition bind {A B : Type} (m : JS A) (k : A -> JS B) : JS B :=
  fun n =>
    match m n with
    | Ok a n' => k a n'
    | TypeError => TypeError
    | Diverge => Diverge
    end.

Definition throw {A : Type} : JS A := fun _ => TypeError.

Definition diverge {A : Type} : JS A := fun _ => Diverge.

Notation "x <- m ;; k" := (bind m (fun x => k))
  (at level 61, m at next level, right associativity).
Notation "' pat <- m ;; k" := (bind m (fun x => match x with pat => k end))
  (at level 61, pat pattern, m at next level, right associativity).

(** ** Generic list helpers: array reads, writes, [splice], [forEachPair] *)

(** [list[i]] followed by an element access: [undefined[k]] throws. *)
Definition index {A : Type} (l : list A) (i : nat) : JS A :=
  match nth_error l i with
  | Some a => ret a
  | None => throw
  end.

Fixpoint update {A : Type} (i : nat) (f : A -> A) (l : list A) : list A :=
  match l, i with
  | [], _ => []
  | a :: l', O => f a :: l'
  | a :: l', S i' => a :: update i' f l'
  end.

(** [list.splice(start, count)] for [start <= list.length]. *)
Definition splice {A : Type} (start count : nat) (l : list A) : list A :=
  firstn start l ++ skipn (start + count) l.

(** The pairs [(list[i-1], list[i])] that [forEachPair] hands to its callback,
    in call order. *)
Fixpoint pairs {A : Type} (l : list A) : list (A * A) :=
  match l with
  | a :: (b :: _) as t => (a, b) :: pairs t
  | _ => []
  end.

(** [forEachPair(list, callback)] with an effectful callback that threads an
    accumulator (the array the callback closes over). *)
Fixpoint forEachPair_from {A B : Type}
  (ps : list (A * A)) (callback : B -> A -> A -> JS B) (acc : B) : JS B :=
  match ps with
  | [] => ret acc
  | (a, b) :: ps' => acc' <- callback acc a b ;; forEachPair_from ps' callback acc'
  end.

Definition forEachPair {A B : Type}
  (l : list A) (callback : B -> A -> A -> JS B) (acc : B) : JS B :=
  forEachPair_from (pairs l) callback acc.

Section Engine.

Context {num : Type} {NUM : Number num} {MATH : MathLib num}.
Local Open Scope js_scope.

(** ** Data model *)

(** A point object [{x, y}]; [pid] is its identity. *)
Record point : Type := mkPoint { pid : nat; px : num; py : num }.

(** A point or [null]. *)
Definition value : Type := option point.

(** A two-element array of points, as the seam cutter sees it. *)
Definition segment : Type := (value * value)%type.

Record OffsetSegment : Type := mkOffsetSegment {
  offsetAngle : num;
  original : point * point;
  offset : point * point
}.

(** The object [lineEquation] returns: [{x}] for a vertical line, [{a, b}]
    for [y = a.x + b]. *)
Inductive line : Type :=
| Vertical (x : num)
| Sloped (a b : num).

Definition newPoint (x y : num) : JS point :=
  fun n => Ok (mkPoint n x y) (S n).

(** [v.x] or [v.y] on a slot: a [TypeError] on [null]. *)
Definition deref (v : value) : JS point :=
  match v with
  | Some p => ret p
  | None => throw
  end.

(** [a == b] on slots: identity of objects, and [null == null]. *)
Definition same_object (a b : value) : bool :=
  match a, b with
  | Some p, Some q => Nat.eqb (pid p) (pid q)
  | None, None => true
  | _, _ => false
  end.

(** ** Geometric primitives *)

Definition lineEquation (pt1 pt2 : point) : option line :=
  if px pt1 === px pt2 then
    if py pt1 === py pt2 then None else Some (Vertical (px pt1))
  else
    let a := (py pt2 - py pt1) / (px pt2 - px pt1) in
    Some (Sloped a (py pt1 - a * px pt1)).

Definition intersection (l1a l1b l2a l2b : point) : JS value :=
  match lineEquation l1a l1b, lineEquation l2a l2b with
  | None, _ => ret None
  | _, None => ret None
  | Some (Vertical x1), Some (Vertical _) => ret None
  | Some (Vertical x1), Some (Sloped a2 b2) =>
      p <- newPoint x1 (a2 * x1 + b2) ;; ret (Some p)
  | Some (Sloped a1 b1), Some (Vertical x2) =>
      p <- newPoint x2 (a1 * x2 + b1) ;; ret (Some p)
  | Some (Sloped a1 b1), Some (Sloped a2 b2) =>
      if a1 === a2 then ret None
      else
        let x := (b2 - b1) / (a1 - a2) in
        p <- newPoint x (a1 * x + b1) ;; ret (Some p)
  end.

Definition signedArea (p1 p2 p3 : point) : num :=
  (px p2 - px p1) * (py p3 - py p1) - (px p3 - px p1) * (py p2 - py p1).

Definition intersects (l1a l1b l2a l2b : point) : bool :=
  (signedArea l1a l1b l2a * signedArea l1a l1b l2b <? nlit 0) &&
  (signedArea l2a l2b l1a * signedArea l2a l2b l1b <? nlit 0).

Definition translatePoint (pt : point) (dist heading : num) : JS point :=
  newPoint (px pt + dist * Math_cos heading) (py pt + dist * Math_sin heading).

(** ** Segment offsetter *)

(** The callback [offsetPointLine] hands to [forEachPair]; [offsetSegments]
    is the array it pushes to. *)
Definition offsetPair (distance : num) (offsetSegments : list OffsetSegment)
  (a b : point) : JS (list OffsetSegment) :=
  if (px a === px b) && (py a === py b) then ret offsetSegments
  else
    let segmentAngle := Math_atan2 (py a - py b) (px a - px b) in
    let offsetAngle := segmentAngle - Math_PI / nlit 2 in
    a' <- translatePoint a distance offsetAngle ;;
    b' <- translatePoint b distance offsetAngle ;;
    ret (offsetSegments ++ [mkOffsetSegment offsetAngle (a, b) (a', b')]).

Definition offsetPointLine (points : list point) (distance : num)
  : JS (list OffsetSegment) :=
  forEachPair points (offsetPair distance) [].

(** The test of the callback: [a.x === b.x && a.y === b.y]. *)
Definition coincident (a b : point) : bool :=
  (px a === px b) && (py a === py b).

Definition distinctPair (ab : point * point) : bool :=
  negb (coincident (fst ab) (snd ab)).

(** What the offsetter owes for the pair [(a, b)]: the heading, the original
    segment, and both endpoints translated along the heading. *)
Definition offsetOf (distance : num) (ab : point * point) (s : OffsetSegment) : Prop :=
  let a := fst ab in
  let b := snd ab in
  let theta := Math_atan2 (py a - py b) (px a - px b) - Math_PI / nlit 2 in
  offsetAngle s = theta /\
  original s = (a, b) /\
  px (fst (offset s)) = px a + distance * Math_cos theta /\
  py (fst (offset s)) = py a + distance * Math_sin theta /\
  px (snd (offset s)) = px b + distance * Math_cos theta /\
  py (snd (offset s)) = py b + distance * Math_sin theta.

(** ** Join resolver *)

Definition segmentAsVector (s : point * point) : num * num :=
  (px (snd s) - px (fst s), py (snd s) - py (fst s)).

Definition getSignedAngle (s1 s2 : point * point) : num :=
  let a := segmentAsVector s1 in
  let b := segmentAsVector s2 in
  Math_atan2 (fst a * snd b - snd a * fst b) (fst a * fst b + snd a * snd b).

(** The body of [for (alpha = startAngle + step; alpha < endAngle; alpha += step)]:
    the points it pushes, from the current [alpha]. *)
Fixpoint arcPoints (fuel : nat) (center : point) (distance alpha endAngle step : num)
  : JS (list point) :=
  if alpha <? endAngle then
    match fuel with
    | O => diverge
    | S fuel' =>
        p <- translatePoint center distance alpha ;;
        rest <- arcPoints fuel' center distance (alpha + step) endAngle step ;;
        ret (p :: rest)
    end
  else ret [].

Definition circularArc (fuel : nat) (s1 s2 : OffsetSegment) (distance : num)
  : JS (list (point * point)) :=
  if offsetAngle s1 === offsetAngle s2 then ret []
  else
    let signedAngle := getSignedAngle (offset s1) (offset s2) in
    if signedAngle * distance >? nlit 0 then ret []
    else
      let center := snd (original s1) in
      let rightOffset := distance >? nlit 0 in
      let startAngle := if rightOffset then offsetAngle s2 else offsetAngle s1 in
      let endAngle := if rightOffset then offsetAngle s1 else offsetAngle s2 in
      let endAngle :=
        if endAngle <? startAngle then endAngle + Math_PI * nlit 2 else endAngle in
      let step := Math_PI / nlit 8 in
      arc <- arcPoints fuel center distance (startAngle + step) endAngle step ;;
      let points :=
        ((if rightOffset then fst (offset s2) else snd (offset s1)) :: arc)
        ++ [if rightOffset then snd (offset s1) else fst (offset s2)] in
      let points := if rightOffset then rev points else points in
      ret (pairs points).

(** [.filter(function(x) { return x; })]: an array is truthy. *)
Definition truthy (s : point * point) : bool := true.


Definition joinOuterAngles (fuel : nat) (s1 s2 : OffsetSegment) (dist : num)
  : JS (list (point * point)) :=
  arc <- circularArc fuel s1 s2 dist ;; ret (filter truthy arc).

(** ** Seam cutter *)

Definition setStart (p : value) (s : segment) : segment := (p, snd s).
Definition setEnd (p : value) (s : segment) : segment := (fst s, p).

(** The inner [while (true)]: the backward search from [j], for the cursor
    [i].  It returns the new cursor and the new array.  The writes
    [segments[j][1] = p] and [segments[i+1][0] = p] are writes at the two
    list positions: this is the code on arrays that are pairwise distinct
    objects, as the pipeline passes them.  [searchBackShared] below is the
    code on arrays that may stand at several indices. *)
Fixpoint searchBack (segments : list segment) (i j : nat)
  : JS (nat * list segment) :=
  sj <- index segments j ;;
  sn <- index segments (i + 1)%nat ;;
  l1a <- deref (fst sj) ;;
  l1b <- deref (snd sj) ;;
  l2a <- deref (fst sn) ;;
  l2b <- deref (snd sn) ;;
  if intersects l1a l1b l2a l2b then
    p <- intersection l1a l1b l2a l2b ;;
    let segments := update j (setEnd p) segments in
    let segments := update (i + 1)%nat (setStart p) segments in
    let segments :=
      if (j <? i)%nat then splice (j + 1)%nat (i - j)%nat segments else segments in
    ret ((j + 1)%nat, segments)
  else
    match j with
    | O => ret ((i + 1)%nat, splice (i + 1)%nat 1 segments)
    | S j' => searchBack segments i j'
    end.

(** What a successful clip at [k] leaves: the end of [k] and the start of
    [i+1] rewritten, and the segments strictly between them removed. *)
Definition clipped (segments : list segment) (i k : nat) (p : value) : list segment :=
  let segments := update k (setEnd p) segments in
  let segments := update (i + 1)%nat (setStart p) segments in
  if (k <? i)%nat then splice (k + 1)%nat (i - k)%nat segments else segments.

(** Whether segment [k] properly intersects segment [m]; [None] when a slot
    is [null] or an index is out of range (the test would throw). *)
Definition properlyIntersects (segments : list segment) (k m : nat) : option bool :=
  match nth_error segments k, nth_error segments m with
  | Some (Some a, Some b), Some (Some c, Some d) => Some (intersects a b c d)
  | _, _ => None
  end.

(** The backward search from [i] reaches index 0 without a hit. *)
Definition noEarlierCrossing (segments : list segment) (i : nat) : bool :=
  forallb
    (fun k =>
       match properlyIntersects segments k (i + 1)%nat with
       | Some false => true
       | _ => false
       end)
    (seq 0 (i + 1)%nat).

(** The test [segments[i][1] == segments[i+1][0]]. *)
Definition linked (segments : list segment) (i : nat) : option bool :=
  match nth_error segments i, nth_error segments (i + 1)%nat with
  | Some si, Some sn => Some (same_object (snd si) (fst sn))
  | _, _ => None
  end.

(** One turn of the outer [while (true)] past its [break] test. *)
Definition cutStep (segments : list segment) (i : nat) : JS (nat * list segment) :=
  si <- index segments i ;;
  sn <- index segments (i + 1)%nat ;;
  if same_object (snd si) (fst sn) then ret ((i + 1)%nat, segments)
  else searchBack segments i i.

Fixpoint cutLoop (fuel : nat) (segments : list segment) (i : nat)
  : JS (list segment) :=
  if (length segments <=? i + 1)%nat then ret segments
  else
    match fuel with
    | O => diverge
    | S fuel' =>
        '(i', segments') <- cutStep segments i ;;
        cutLoop fuel' segments' i'
    end.

Definition cutInnerAngles (fuel : nat) (segments : list segment) : JS (list value) :=
  segments <- cutLoop fuel segments 0 ;;
  s0 <- index segments 0 ;;
  ret (fst s0 :: map snd segments).

(** ** The pipeline *)

Definition asSegment (s : point * point) : segment := (Some (fst s), Some (snd s)).

(** The callback [joinLineSegments] hands to [forEachPair]. *)
Definition joinPair
  (joinOuter : OffsetSegment -> OffsetSegment -> num -> JS (list (point * point)))
  (dist : num) (offsetSegments : list (point * point)) (s1 s2 : OffsetSegment)
  : JS (list (point * point)) :=
  arc <- joinOuter s1 s2 dist ;;
  ret ((offsetSegments ++ arc) ++ [offset s2]).

(** [joinLineSegments], with the two methods it reaches through [this]. *)
Definition joinLineSegmentsWith
  (joinOuter : OffsetSegment -> OffsetSegment -> num -> JS (list (point * point)))
  (cutInner : list segment -> JS (list value))
  (segments : list OffsetSegment) (dist : num) : JS (list value) :=
  match segments with
  | [] => ret []
  | first :: _ =>
      offsetSegments <- forEachPair segments (joinPair joinOuter dist) [offset first] ;;
      cutInner (map asSegment offsetSegments)
  end.

Definition joinLineSegments (fuel : nat) (segments : list OffsetSegment) (dist : num)
  : JS (list value) :=
  joinLineSegmentsWith (joinOuterAngles fuel) (cutInnerAngles fuel) segments dist.

(** [offsetPoints]: [pts] stands for what the host's
    [L.LineUtil.simplify(pts, options.smoothFactor)] returned, [dist] for
    [options.offset]. *)
Definition offsetPoints (fuel : nat) (pts : list point) (dist : num) : JS (list value) :=
  offsetSegments <- offsetPointLine pts dist ;;
  joinLineSegments fuel offsetSegments dist.

End Engine.

Arguments point num : clear implicits.
Arguments value num : clear implicits.
Arguments segment num : clear implicits.
Arguments OffsetSegment num : clear implicits.
Arguments line num : clear implicits.

(** ** The number model: binary64 *)

Definition float_lit (z : Z) : float :=
  match z with
  | Z0 => PrimFloat.of_uint63 (Uint63.of_Z 0)
  | Zpos _ => PrimFloat.of_uint63 (Uint63.of_Z z)
  | Zneg _ => PrimFloat.opp (PrimFloat.of_uint63 (Uint63.of_Z (Z.opp z)))
  end.

#[export] Instance float_Number : Number float := {|
  nlit := float_lit;
  nadd := PrimFloat.add;
  nsub := PrimFloat.sub;
  nmul := PrimFloat.mul;
  ndiv := PrimFloat.div;
  neqb := PrimFloat.eqb;
  nltb := PrimFloat.ltb
|}.

(** A point literal for examples. *)
Definition fpt (id : nat) (x y : Z) : point float := mkPoint id (float_lit x) (float_lit y).

(** ** Binary64: the encoding *)

(** The 63 bits below the sign bit of the binary64 encoding of [x]. *)
Definition magnitudeBits (x : float) : Z :=
  match Prim2SF x with
  | S754_zero _ => 0
  | S754_infinity _ => 0x7ff0000000000000
  | S754_nan => 0x7ff8000000000000
  | S754_finite _ m e =>
      if (Zpos m <? 2 ^ 52)%Z then Zpos m
      else ((e + 1075) * 2 ^ 52 + (Zpos m - 2 ^ 52))%Z
  end.

(** The number with sign bit [s] and the 63 bits [b] below it. *)
Definition fromBits (s : bool) (b : Z) : float :=
  let biased := (b / 2 ^ 52)%Z in
  let frac := (b mod 2 ^ 52)%Z in
  SF2Prim
    (if (biased =? 0)%Z then
       match frac with
       | Zpos m => S754_finite s m (-1074)
       | _ => S754_zero s
       end
     else if (biased =? 2047)%Z then
       if (frac =? 0)%Z then S754_infinity s else S754_nan
     else
       match (frac + 2 ^ 52)%Z with
       | Zpos m => S754_finite s m (biased - 1075)
       | _ => S754_nan
       end).

(** The number whose encoding has the high word [hi] and the low word [lo]. *)
Definition double (hi lo : Z) : float :=
  fromBits (0x80000000 <=? hi)%Z ((hi mod 0x80000000) * 2 ^ 32 + lo)%Z.

(** The high word of the encoding without its sign bit, and the low word. *)
Definition highWord (x : float) : Z := (magnitudeBits x / 2 ^ 32)%Z.
Definition lowWord (x : float) : Z := (magnitudeBits x mod 2 ^ 32)%Z.

(** [(int) x] for a number in the range of the integers. *)
Definition truncate (x : float) : Z :=
  match Prim2SF x with
  | S754_finite s m e =>
      let v := if (0 <=? e)%Z then (Zpos m * 2 ^ e)%Z else (Zpos m / 2 ^ (- e))%Z in
      if s then (- v)%Z else v
  | _ => 0%Z
  end.

Definition ofZ (n : Z) : float :=
  match n with
  | Z0 => PrimFloat.of_uint63 (Uint63.of_Z 0)
  | Zpos _ => PrimFloat.of_uint63 (Uint63.of_Z n)
  | Zneg _ => PrimFloat.opp (PrimFloat.of_uint63 (Uint63.of_Z (Z.opp n)))
  end.

(** ** The host's [Math] on binary64

    [Math.cos], [Math.sin] and [Math.atan2] as fdlibm computes them (k_sin.c,
    k_cos.c, e_rem_pio2.c, s_sin.c, s_cos.c, s_atan.c, e_atan2.c), constants
    given by the two words of their encoding as in those files.  Beyond
    2^19 * PI/2 fdlibm reduces the argument with a multi-word routine that is
    not reproduced here: [cos] and [sin] return NaN there.  The headings the
    segment offsetter computes, and those the join resolver samples between
    them, stay below 3 * PI. *)

Module Fdlibm.

Local Open Scope float_scope.

Definition half : float := double 0x3FE00000 0.
Definition one : float := double 0x3FF00000 0.

Definition S1 := double 0xBFC55555 0x55555549.
Definition S2 := double 0x3F811111 0x1110F8A6.
Definition S3 := double 0xBF2A01A0 0x19C161D5.
Definition S4 := double 0x3EC71DE3 0x57B1FE7D.
Definition S5 := double 0xBE5AE5E6 0x8A2B9CEB.
Definition S6 := double 0x3DE5D93A 0x5ACFD57C.

Definition C1 := double 0x3FA55555 0x5555554C.
Definition C2 := double 0xBF56C16C 0x16C15177.
Definition C3 := double 0x3EFA01A0 0x19CB1590.
Definition C4 := double 0xBE927E4F 0x809C52AD.
Definition C5 := double 0x3E21EE9E 0xBDB4B1C4.
Definition C6 := double 0xBDA8FAE9 0xBE8838D4.

Definition invpio2 := double 0x3FE45F30 0x6DC9C883.
Definition pio2_1 := double 0x3FF921FB 0x54400000.
Definition pio2_1t := double 0x3DD0B461 0x1A626331.
Definition pio2_2 := double 0x3DD0B461 0x1A600000.
Definition pio2_2t := double 0x3BA3198A 0x2E037073.
Definition pio2_3 := double 0x3BA3198A 0x2E000000.
Definition pio2_3t := double 0x397B839A 0x252049C1.

Definition npio2_hw : list Z :=
  [0x3FF921FB; 0x400921FB; 0x4012D97C; 0x401921FB; 0x401F6A7A; 0x4022D97C;
   0x4025FDBB; 0x402921FB; 0x402C463A; 0x402F6A7A; 0x4031475C; 0x4032D97C;
   0x40346B9C; 0x4035FDBB; 0x40378FDB; 0x403921FB; 0x403AB41B; 0x403C463A;
   0x403DD85A; 0x403F6A7A; 0x40407E4C; 0x4041475C; 0x4042106C; 0x4042D97C;
   0x4043A28C; 0x40446B9C; 0x404534AC; 0x4045FDBB; 0x4046C6CB; 0x40478FDB;
   0x404858EB; 0x404921FB]%Z.

Definition atanhi (id : Z) : float :=
  match id with
  | 0%Z => double 0x3FDDAC67 0x0561BB4F
  | 1%Z => double 0x3FE921FB 0x54442D18
  | 2%Z => double 0x3FEF730B 0xD281F69B
  | _ => double 0x3FF921FB 0x54442D18
  end.

Definition atanlo (id : Z) : float :=
  match id with
  | 0%Z => double 0x3C7A2B7F 0x222F65E2
  | 1%Z => double 0x3C81A626 0x33145C07
  | 2%Z => double 0x3C700788 0x7AF0CBBD
  | _ => double 0x3C91A626 0x33145C07
  end.

Definition aT0 := double 0x3FD55555 0x5555550D.
Definition aT1 := double 0xBFC99999 0x9998EBC4.
Definition aT2 := double 0x3FC24924 0x920083FF.
Definition aT3 := double 0xBFBC71C6 0xFE231671.
Definition aT4 := double 0x3FB745CD 0xC54C206E.
Definition aT5 := double 0xBFB3B0F2 0xAF749A6D.
Definition aT6 := double 0x3FB10D66 0xA0D03D51.
Definition aT7 := double 0xBFADDE2D 0x52DEFD9A.
Definition aT8 := double 0x3FA97B4B 0x24760DEB.
Definition aT9 := double 0xBFA2B444 0x2C6A6C2F.
Definition aT10 := double 0x3F90AD3A 0xE322DA11.

Definition pi := double 0x400921FB 0x54442D18.
Definition pi_o_2 := double 0x3FF921FB 0x54442D18.
Definition pi_o_4 := double 0x3FE921FB 0x54442D18.
Definition pi_lo := double 0x3CA1A626 0x33145C07.
Definition tiny := double 0x01A56E1F 0xC2F8F359.

Definition kernel_sin (x y : float) (iy : bool) : float :=
  let ix := highWord x in
  if (ix <? 0x3e400000)%Z then x
  else
    let z := x * x in
    let v := z * x in
    let r := S2 + z * (S3 + z * (S4 + z * (S5 + z * S6))) in
    if iy then x - ((z * (half * y - v * r) - y) - v * S1)
    else x + v * (S1 + z * r).

Definition kernel_cos (x y : float) : float :=
  let ix := highWord x in
  if (ix <? 0x3e400000)%Z then one
  else
    let z := x * x in
    let r := z * (C1 + z * (C2 + z * (C3 + z * (C4 + z * (C5 + z * C6))))) in
    if (ix <? 0x3FD33333)%Z then one - (half * z - (z * r - x * y))
    else
      let qx := if (0x3fe90000 <? ix)%Z then double 0x3FD20000 0
                else double (ix - 0x00200000) 0 in
      let hz := half * z - qx in
      let a := one - qx in
      a - (hz - (z * r - x * y)).

(** The biased exponent field. *)
Definition exponentField (x : float) : Z := (highWord x / 2 ^ 20)%Z.

Definition rem_pio2 (x : float) : option (Z * float * float) :=
  let ix := highWord x in
  let neg := get_sign x in
  if (ix <=? 0x3fe921fb)%Z then Some (0%Z, x, double 0 0)
  else if (ix <? 0x4002d97c)%Z then
    if neg then
      let z := x + pio2_1 in
      if negb (ix =? 0x3ff921fb)%Z then
        let y0 := z + pio2_1t in Some ((-1)%Z, y0, (z - y0) + pio2_1t)
      else
        let z := z + pio2_2 in
        let y0 := z + pio2_2t in Some ((-1)%Z, y0, (z - y0) + pio2_2t)
    else
      let z := x - pio2_1 in
      if negb (ix =? 0x3ff921fb)%Z then
        let y0 := z - pio2_1t in Some (1%Z, y0, (z - y0) - pio2_1t)
      else
        let z := z - pio2_2 in
        let y0 := z - pio2_2t in Some (1%Z, y0, (z - y0) - pio2_2t)
  else if (ix <=? 0x413921fb)%Z then
    let t := abs x in
    let n := truncate (t * invpio2 + half) in
    let fn := ofZ n in
    let r := t - fn * pio2_1 in
    let w := fn * pio2_1t in
    let '(y0, r, w) :=
      if (n <? 32)%Z && negb (ix =? nth (Z.to_nat (n - 1)) npio2_hw 0)%Z
      then (r - w, r, w)
      else
        let j := (ix / 2 ^ 20)%Z in
        let y0 := r - w in
        let i := (j - exponentField y0)%Z in
        if (16 <? i)%Z then
          let t := r in
          let w := fn * pio2_2 in
          let r := t - w in
          let w := fn * pio2_2t - ((t - r) - w) in
          let y0 := r - w in
          let i := (j - exponentField y0)%Z in
          if (49 <? i)%Z then
            let t := r in
            let w := fn * pio2_3 in
            let r := t - w in
            let w := fn * pio2_3t - ((t - r) - w) in
            (r - w, r, w)
          else (y0, r, w)
        else (y0, r, w) in
    let y1 := (r - y0) - w in
    if neg then Some ((- n)%Z, - y0, - y1) else Some (n, y0, y1)
  else None.

Definition cos (x : float) : float :=
  let ix := highWord x in
  if (ix <=? 0x3fe921fb)%Z then kernel_cos x (double 0 0)
  else if (0x7ff00000 <=? ix)%Z then x - x
  else
    match rem_pio2 x with
    | Some (n, y0, y1) =>
        match (n mod 4)%Z with
        | 0%Z => kernel_cos y0 y1
        | 1%Z => - kernel_sin y0 y1 true
        | 2%Z => - kernel_cos y0 y1
        | _ => kernel_sin y0 y1 true
        end
    | None => nan
    end.

Definition sin (x : float) : float :=
  let ix := highWord x in
  if (ix <=? 0x3fe921fb)%Z then kernel_sin x (double 0 0) false
  else if (0x7ff00000 <=? ix)%Z then x - x
  else
    match rem_pio2 x with
    | Some (n, y0, y1) =>
        match (n mod 4)%Z with
        | 0%Z => kernel_sin y0 y1 true
        | 1%Z => kernel_cos y0 y1
        | 2%Z => - kernel_sin y0 y1 true
        | _ => - kernel_cos y0 y1
        end
    | None => nan
    end.

Definition atan (x : float) : float :=
  let ix := highWord x in
  let neg := get_sign x in
  if (0x44100000 <=? ix)%Z then
    if is_nan x then x + x
    else if neg then - atanhi 3 - atanlo 3 else atanhi 3 + atanlo 3
  else
    let '(id, x') :=
      if (ix <? 0x3fdc0000)%Z then ((-1)%Z, x)
      else
        let x := abs x in
        if (ix <? 0x3ff30000)%Z then
          if (ix <? 0x3fe60000)%Z then (0%Z, (double 0x40000000 0 * x - one) / (double 0x40000000 0 + x))
          else (1%Z, (x - one) / (x + one))
        else
          if (ix <? 0x40038000)%Z then
            (2%Z, (x - double 0x3FF80000 0) / (one + double 0x3FF80000 0 * x))
          else (3%Z, - one / x) in
    if (ix <? 0x3e200000)%Z then x
    else
      let z := x' * x' in
      let w := z * z in
      let s1 := z * (aT0 + w * (aT2 + w * (aT4 + w * (aT6 + w * (aT8 + w * aT10))))) in
      let s2 := w * (aT1 + w * (aT3 + w * (aT5 + w * (aT7 + w * aT9)))) in
      if (id <? 0)%Z then x' - x' * (s1 + s2)
      else
        let z := atanhi id - ((x' * (s1 + s2) - atanlo id) - x') in
        if neg then - z else z.

Definition atan2 (y x : float) : float :=
  let ix := highWord x in
  let lx := lowWord x in
  let iy := highWord y in
  let ly := lowWord y in
  let xneg := get_sign x in
  let yneg := get_sign y in
  if is_nan x || is_nan y then x + y
  else if negb xneg && (ix =? 0x3ff00000)%Z && (lx =? 0)%Z then atan y
  else if (iy =? 0)%Z && (ly =? 0)%Z then
    if xneg then (if yneg then - pi - tiny else pi + tiny) else y
  else if (ix =? 0)%Z && (lx =? 0)%Z then
    if yneg then - pi_o_2 - tiny else pi_o_2 + tiny
  else if (ix =? 0x7ff00000)%Z then
    if (iy =? 0x7ff00000)%Z then
      match xneg, yneg with
      | false, false => pi_o_4 + tiny
      | false, true => - pi_o_4 - tiny
      | true, false => double 0x40080000 0 * pi_o_4 + tiny
      | true, true => - double 0x40080000 0 * pi_o_4 - tiny
      end
    else
      match xneg, yneg with
      | false, false => double 0 0
      | false, true => double 0x80000000 0
      | true, false => pi + tiny
      | true, true => - pi - tiny
      end
  else if (iy =? 0x7ff00000)%Z then
    if yneg then - pi_o_2 - tiny else pi_o_2 + tiny
  else
    let k := ((iy - ix) / 2 ^ 20)%Z in
    let z := if (60 <? k)%Z then pi_o_2 + half * pi_lo
             else if xneg && (k <? -60)%Z then double 0 0
             else atan (abs (y / x)) in
    match xneg, yneg with
    | false, false => z
    | false, true => - z
    | true, false => pi - (z - pi_lo)
    | true, true => (z - pi_lo) - pi
    end.

End Fdlibm.

#[export] Instance float_MathLib : MathLib float := {|
  Math_PI := Fdlibm.pi;
  Math_cos := Fdlibm.cos;
  Math_sin := Fdlibm.sin;
  Math_atan2 := Fdlibm.atan2
|}.

(** ** Exact values: what a statement about positions speaks of

    A finite binary64 number is a rational; the geometry of a claim is said
    of the rationals the coordinates stand for. *)

Definition exactValue (x : float) : option Q :=
  match Prim2SF x with
  | S754_zero _ => Some 0%Q
  | S754_finite s m e =>
      let z := if s then Zneg m else Zpos m in
      Some (if (0 <=? e)%Z then inject_Z (z * 2 ^ e)
            else Qmake z (Pos.pow 2 (Z.to_pos (- e))))
  | _ => None
  end.

Definition exactPoint (p : point float) : option (Q * Q) :=
  match exactValue (px p), exactValue (py p) with
  | Some x, Some y => Some (x, y)
  | _, _ => None
  end.

(** Twice the signed area of the triangle of three positions. *)
Definition areaQ (p1 p2 p3 : Q * Q) : Q :=
  ((fst p2 - fst p1) * (snd p3 - snd p1) - (fst p3 - fst p1) * (snd p2 - snd p1))%Q.

Definition Qnegative (q : Q) : bool := negb (Qle_bool 0 q).

(** [c] and [d] lie strictly on opposite sides of the line through [a] and
    [b]. *)
Definition oppositeSidesExactly (a b c d : point float) : bool :=
  match exactPoint a, exactPoint b, exactPoint c, exactPoint d with
  | Some a, Some b, Some c, Some d => Qnegative (areaQ a b c * areaQ a b d)
  | _, _, _, _ => false
  end.

(** Each segment has its endpoints strictly on opposite sides of the line
    through the other. *)
Definition crossExactly (a b c d : point float) : bool :=
  oppositeSidesExactly a b c d && oppositeSidesExactly c d a b.

(** [p] lies on the infinite line through [a] and [b]. *)
Definition onLineExactly (p a b : point float) : bool :=
  match exactPoint p, exactPoint a, exactPoint b with
  | Some p, Some a, Some b => Qeq_bool (areaQ a b p) 0
  | _, _, _ => false
  end.

(** The two positions are the same. *)
Definition samePositionExactly (a b : point float) : bool :=
  match exactPoint a, exactPoint b with
  | Some a, Some b => Qeq_bool (fst a) (fst b) && Qeq_bool (snd a) (snd b)
  | _, _ => false
  end.

(** The lines through the two pairs have the same direction. *)
Definition parallelExactly (l1a l1b l2a l2b : point float) : bool :=
  match exactPoint l1a, exactPoint l1b, exactPoint l2a, exactPoint l2b with
  | Some a, Some b, Some c, Some d =>
      Qeq_bool ((fst b - fst a) * (snd d - snd c) - (snd b - snd a) * (fst d - fst c)) 0
  | _, _, _, _ => false
  end.


(** ** What the statements about the engine speak of *)

Section Notions.

Context {num : Type} {NUM : Number num} {MATH : MathLib num}.
Local Open Scope js_scope.

(** The number model with another division. *)
Definition withDivision (div : num -> num -> num) : Number num := {|
  nlit := nlit;
  nadd := nadd;
  nsub := nsub;
  nmul := nmul;
  ndiv := div;
  neqb := neqb;
  nltb := nltb
|}.

(** The two points have the same [x]: their line is vertical, or they are
    one position. *)
Definition sameX (a b : point num) : bool := px a === px b.

(** Slope and intercept of the line through two points of different [x]. *)
Definition slopeOf (a b : point num) : num := (py b - py a) / (px b - px a).
Definition interceptOf (a b : point num) : num := py a - slopeOf a b * px a.

(** The cases in which [intersection] finds no unique intersection: a pair
    of identical points, two vertical lines, or two lines of one slope. *)
Definition noUniqueIntersection (l1a l1b l2a l2b : point num) : bool :=
  coincident l1a l1b || coincident l2a l2b
  || (sameX l1a l1b && sameX l2a l2b)
  || (negb (sameX l1a l1b) && negb (sameX l2a l2b)
      && (slopeOf l1a l1b === slopeOf l2a l2b)).

(** Two numbers of strictly opposite sign. *)
Definition oppositeSigns (u v : num) : bool :=
  ((u <? nlit 0) && (nlit 0 <? v)) || ((nlit 0 <? u) && (v <? nlit 0)).

(** The segment object the offsetter makes of the pair [(a, b)], its two
    offset endpoints being the objects [n] and [n + 1]. *)
Definition offsetSegmentOf (a b : point num) (distance : num) (n : nat)
  : OffsetSegment num :=
  let theta := Math_atan2 (py a - py b) (px a - px b) - Math_PI / nlit 2 in
  mkOffsetSegment theta (a, b)
    (mkPoint n (px a + distance * Math_cos theta) (py a + distance * Math_sin theta),
     mkPoint (S n) (px b + distance * Math_cos theta) (py b + distance * Math_sin theta)).

(** The join of [s1] and [s2] needs no arc: the headings are identical, or
    the turn is inner. *)
Definition emitsNothing (s1 s2 : OffsetSegment num) (distance : num) : bool :=
  (offsetAngle s1 === offsetAngle s2)
  || (getSignedAngle (offset s1) (offset s2) * distance >? nlit 0).









End Notions.

(** ** The seam cutter on shared arrays

    [segments] is an array of arrays: each entry is a reference to a
    two-slot array on the heap, and one array may stand at several indices.
    [segments[j][1] = p] writes into the array, [splice] removes
    references. *)

Section SharedArrays.

Context {num : Type} {NUM : Number num}.

Definition heap : Type := list (segment num).

Fixpoint searchBackShared (h : heap) (segments : list nat) (i j : nat)
  : JS (nat * list nat * heap) :=
  rj <- index segments j ;;
  rn <- index segments (i + 1)%nat ;;
  sj <- index h rj ;;
  sn <- index h rn ;;
  l1a <- deref (fst sj) ;;
  l1b <- deref (snd sj) ;;
  l2a <- deref (fst sn) ;;
  l2b <- deref (snd sn) ;;
  if intersects l1a l1b l2a l2b then
    p <- intersection l1a l1b l2a l2b ;;
    let h := update rj (setEnd p) h in
    let h := update rn (setStart p) h in
    let segments :=
      if (j <? i)%nat then splice (j + 1)%nat (i - j)%nat segments else segments in
    ret ((j + 1)%nat, segments, h)
  else
    match j with
    | O => ret ((i + 1)%nat, splice (i + 1)%nat 1 segments, h)
    | S j' => searchBackShared h segments i j'
    end.

Definition cutStepShared (h : heap) (segments : list nat) (i : nat)
  : JS (nat * list nat * heap) :=
  ri <- index segments i ;;
  rn <- index segments (i + 1)%nat ;;
  si <- index h ri ;;
  sn <- index h rn ;;
  if same_object (snd si) (fst sn) then ret ((i + 1)%nat, segments, h)
  else searchBackShared h segments i i.

Fixpoint cutLoopShared (fuel : nat) (h : heap) (segments : list nat) (i : nat)
  : JS (list nat * heap) :=
  if (length segments <=? i + 1)%nat then ret (segments, h)
  else
    match fuel with
    | O => diverge
    | S fuel' =>
        '(i', segments', h') <- cutStepShared h segments i ;;
        cutLoopShared fuel' h' segments' i'
    end.

(** The arrays the references stand for. *)
Fixpoint readAll (h : heap) (segments : list nat) : JS (list (segment num)) :=
  match segments with
  | [] => ret []
  | r :: segments' =>
      s <- index h r ;;
      rest <- readAll h segments' ;;
      ret (s :: rest)
  end.

Definition cutInnerAnglesShared (fuel : nat) (h : heap) (segments : list nat)
  : JS (list (value num)) :=
  '(segments, h) <- cutLoopShared fuel h segments 0 ;;
  arrays <- readAll h segments ;;
  s0 <- index arrays 0 ;;
  ret (fst s0 :: map snd arrays).

(** The references [segments] stand for the arrays [arrays] of the heap. *)
Definition standsFor (h : heap) (segments : list nat) (arrays : list (segment num))
  : Prop :=
  Forall2 (fun r s => nth_error h r = Some s) segments arrays.

End SharedArrays.

Arguments heap num : clear implicits.

(** Two runs end alike: both throw, both diverge, or both return, with
    related results and the same next free identity. *)
Definition sameRun {A B : Type} (R : A -> B -> Prop) (o1 : outcome A) (o2 : outcome B)
  : Prop :=
  match o1, o2 with
  | Ok a n, Ok b n' => R a b /\ n = n'
  | TypeError, TypeError => True
  | Diverge, Diverge => True
  | _, _ => False
  end.

(** ** Example inputs *)

Definition fseg (a b : point float) : segment float := (Some a, Some b).

(** Three segments, the first two on one line and end to start, every
    endpoint an object of its own. *)
Definition collinear_run : list (segment float) :=
  [fseg (fpt 0 0 0) (fpt 1 1 0); fseg (fpt 2 1 0) (fpt 3 2 0); fseg (fpt 4 2 0) (fpt 5 2 5)].

(** Two segments that cross at (8, 0). *)
Definition inner_corner : list (segment float) :=
  [fseg (fpt 0 0 0) (fpt 1 10 0); fseg (fpt 2 8 (-2)) (fpt 3 8 10)].

(** Two segments that share the object at (10, 0). *)
Definition linked_pair : list (segment float) :=
  [fseg (fpt 0 0 0) (fpt 1 10 0); fseg (fpt 1 10 0) (fpt 2 10 10)].

(** Two linked segments and a third that crosses the first one only. *)
Definition backtrack_run : list (segment float) :=
  [fseg (fpt 0 0 0) (fpt 1 10 0); fseg (fpt 1 10 0) (fpt 2 10 10);
   fseg (fpt 3 5 (-1)) (fpt 4 5 20)].

(** A straight path of two segments. *)
Definition straight_path : list (point float) := [fpt 0 0 0; fpt 1 1 0; fpt 2 2 0].

(** A path that turns left by a right angle at (10, 0), and its two segments
    offset by 5 to the left: the join is outer. *)
Definition corner_path : list (point float) := [fpt 0 0 0; fpt 1 10 0; fpt 2 10 10].

Definition cornerFirst : OffsetSegment float :=
  offsetSegmentOf (fpt 0 0 0) (fpt 1 10 0) (float_lit (-5)) 3.

Definition cornerSecond : OffsetSegment float :=
  offsetSegmentOf (fpt 1 10 0) (fpt 2 10 10) (float_lit (-5)) 5.





(** Three unlinked segments: the second crosses nothing, the third crosses
    the first at (5, 0). *)
Definition skipped_crossing : list (segment float) :=
  [fseg (fpt 0 0 0) (fpt 1 10 0); fseg (fpt 2 20 20) (fpt 3 21 21);
   fseg (fpt 4 5 (-5)) (fpt 5 5 5)].



(** The arrays of [inner_corner] on the heap, each at one index. *)
Definition inner_corner_run : list nat := [0; 1].

(** Three unlinked segments; on binary64 the first two properly intersect
    by the signed areas and have one computed slope. *)
Definition null_clip : list (segment float) :=
  [fseg (mkPoint 0 (-0x1.5fe7928cd48fcp+4) 0x1.60337873867fep+6)
        (mkPoint 1 (-0x1.141d85abf9557p+6) 0x1.3a3b36a234a80p+5);
   fseg (mkPoint 2 (-0x1.5fe7928cd48fbp+4) 0x1.60337873867fep+6)
        (mkPoint 3 (-0x1.141d85abf9557p+6) 0x1.3a3b36a234a81p+5);
   fseg (fpt 4 0 0) (fpt 5 1 1)]%float.

(** ** The host hook: [L.Polyline.prototype._projectLatlngs] *)

(** [array.forEach(f)] with an effectful [f] that threads a state. *)
Definition forEach {A S : Type} (f : A -> S -> JS S) : list A -> S -> JS S :=
  fix each (l : list A) (st : S) : JS S :=
    match l with
    | [] => ret st
    | a :: l' => st' <- f a st ;; each l' st'
    end.

Section Host.

Context {num : Type} {NUM : Number num} {MATH : MathLib num}.
Local Open Scope js_scope.

(** What the hook reaches in Leaflet, outside this repository: the class
    [L.LatLng]; the coordinates of the Point that
    [this._map.latLngToLayerPoint(ll)] returns; the class [L.Bounds] with
    [extend], which reads [point.x] and [point.y]; and
    [L.LineUtil.simplify(pts, this.options.smoothFactor)], which returns
    some of the objects of [pts]. *)
Variable LatLng : Type.
Variable latLngToLayerPoint : LatLng -> num * num.
Variable Bounds : Type.
Variable extend : Bounds -> num -> num -> Bounds.
Variable simplify : list (point num) -> list (point num).

(** The argument [latlngs]: an array of [LatLng] objects, or an array of
    such arguments. *)
#[warnings="-register-all"] Inductive latlngs : Type :=
| Flat (ring : list LatLng)
| Nested (parts : list latlngs).

(** The two objects the hook mutates: the array [result] and, when given,
    [projectedBounds]. *)
Record hostState : Type := mkHostState {
  result : list (list (point num));
  projectedBounds : option Bounds
}.

(** [this.options.offset] as a condition: [undefined] ([None]), 0 and NaN
    are falsy. *)
Definition offsetIsSet (offset : option num) : option num :=
  match offset with
  | Some d => if (d === nlit 0) || negb (d === d) then None else Some d
  | None => None
  end.

(** The coordinates of a point object. *)
Definition xy (p : point num) : num * num := (px p, py p).

(** The callback of [latlngs.map]: project, extend the bounds, collect. *)
Definition projectOne (ll : LatLng) (st : list (point num) * option Bounds)
  : JS (list (point num) * option Bounds) :=
  let xy := latLngToLayerPoint ll in
  point <- newPoint (fst xy) (snd xy) ;;
  ret (fst st ++ [point],
       option_map (fun b => extend b (px point) (py point)) (snd st)).

(** [ring.map(function (xy) { return L.point(xy.x, xy.y); })]. *)
Fixpoint copyRing (ring : list (value num)) : JS (list (point num)) :=
  match ring with
  | [] => ret []
  | xy :: ring' =>
      xy <- deref xy ;;
      p <- newPoint (px xy) (py xy) ;;
      rest <- copyRing ring' ;;
      ret (p :: rest)
  end.

(** The flat branch. *)
Definition projectRing (fuel : nat) (offset : option num) (lls : list LatLng)
  (st : hostState) : JS hostState :=
  '(ring, bounds) <- forEach projectOne lls ([], projectedBounds st) ;;
  ring <- match offsetIsSet offset with
          | Some d => offsetPoints fuel (simplify ring) d
          | None => ret (map Some ring)
          end ;;
  pts <- copyRing ring ;;
  ret (mkHostState (result st ++ [pts]) bounds).

Fixpoint _projectLatlngs (fuel : nat) (offset : option num) (latlngs : latlngs)
  (st : hostState) : JS hostState :=
  match latlngs with
  | Flat [] => ret st
  | Flat (ll :: lls) => projectRing fuel offset (ll :: lls) st
  | Nested parts => forEach (_projectLatlngs fuel offset) parts st
  end.

(** The non-empty flat rings of an argument, in the order the hook meets
    them. *)
Fixpoint rings (latlngs : latlngs) : list (list LatLng) :=
  match latlngs with
  | Flat [] => []
  | Flat (ll :: lls) => [ll :: lls]
  | Nested parts => flat_map rings parts
  end.

(** The bounds after extending them with every projected position. *)
Definition extendAll (bounds : option Bounds) (lls : list LatLng) : option Bounds :=
  fold_left
    (fun b ll => option_map
                   (fun b => extend b (fst (latLngToLayerPoint ll))
                                      (snd (latLngToLayerPoint ll))) b)
    lls bounds.

End Host.

Arguments Flat {LatLng} ring.
Arguments Nested {LatLng} parts.
Arguments hostState num Bounds : clear implicits.
Arguments mkHostState {num Bounds} result projectedBounds.
Arguments result {num Bounds} h.
Arguments projectedBounds {num Bounds} h.
Arguments projectOne {num LatLng} latLngToLayerPoint {Bounds} extend ll st.
Arguments projectRing {num NUM MATH LatLng} latLngToLayerPoint {Bounds} extend
  simplify fuel offset lls st.
Arguments _projectLatlngs {num NUM MATH LatLng} latLngToLayerPoint {Bounds} extend
  simplify fuel offset latlngs st.
Arguments rings {LatLng} latlngs.
Arguments extendAll {num LatLng} latLngToLayerPoint {Bounds} extend bounds lls.

(** A host for examples: geographic positions are integer pairs, projected
    to themselves; the bounds are the list of the positions they were
    extended with; [simplify] keeps every point. *)
Definition exampleProject (ll : Z * Z) : float * float :=
  (float_lit (fst ll), float_lit (snd ll)).
Definition exampleExtend (b : list (float * float)) (x y : float) : list (float * float) :=
  b ++ [(x, y)].
Definition exampleSimplify (pts : list (point float)) : list (point float) := pts.

(** A multi-polyline of one ring of two positions and one empty ring. *)
Definition exampleLatlngs : latlngs (Z * Z) :=
  Nested [Flat [(0, 0); (10, 0)]%Z; Flat []].

Definition exampleState : hostState float (list (float * float)) :=
  mkHostState [] (Some []).

(** ** Where the slots of the seam cutter's result come from *)

(** A slot value is known: it is a slot of one of [segments], or [null], or
    an object allocated in the interval [[n, n')]. *)
Definition knownSlot {num : Type} (segments : list (segment num)) (n n' : nat)
  (v : value num) : Prop :=
  (exists s, In s segments /\ (v = fst s \/ v = snd s)) \/
  v = None \/
  (exists p, v = Some p /\ n <= pid p < n').

(** * Properties *)

(** ** Lists: [update], [splice], [pairs] *)

Lemma update_length {A : Type} (f : A -> A) (l : list A) (i : nat) :
  length (update i f l) = length l.
Proof.
  revert i; induction l as [|a l IH]; intros [|i]; simpl; auto.
Qed.

Lemma splice_length {A : Type} (start count : nat) (l : list A) :
  start + count <= length l ->
  length (splice start count l) = length l - count.
Proof.
  intros H. unfold splice.
  rewrite length_app, firstn_length_le, length_skipn by lia. lia.
Qed.

Lemma splice_head {A : Type} (start count : nat) (a : A) (l : list A) :
  splice (S start) count (a :: l) = a :: splice start count l.
Proof. reflexivity. Qed.

Lemma pairs_cons2 {A : Type} (a b : A) (l : list A) :
  pairs (a :: b :: l) = (a, b) :: pairs (b :: l).
Proof. reflexivity. Qed.

Lemma pairs_length {A : Type} (l : list A) : length (pairs l) = length l - 1.
Proof.
  induction l as [|a [|b l] IH]; simpl in *; auto. lia.
Qed.

Lemma pairs_app_shared {A : Type} (l1 : list A) (x : A) (l2 : list A) :
  pairs (l1 ++ [x]) ++ pairs (x :: l2) = pairs (l1 ++ x :: l2).
Proof.
  induction l1 as [|a [|b l1] IH]; simpl in *; auto.
  now rewrite IH.
Qed.

Lemma nth_error_pairs {A : Type} (l : list A) :
  forall k a b,
    nth_error l k = Some a -> nth_error l (S k) = Some b ->
    nth_error (pairs l) k = Some (a, b).
Proof.
  induction l as [|x [|y l] IH]; intros k a b Ha Hb.
  - destruct k; discriminate.
  - destruct k as [|[|k]]; discriminate.
  - destruct k as [|k].
    + simpl in *. congruence.
    + rewrite pairs_cons2. cbn [nth_error]. apply IH; assumption.
Qed.

Lemma map_snd_pairs {A : Type} (a : A) (l : list A) :
  map snd (pairs (a :: l)) = l.
Proof.
  revert a. induction l as [|b l IH]; intros a; [reflexivity|].
  rewrite pairs_cons2. cbn [map snd]. now rewrite IH.
Qed.

(** ** The monad *)

Lemma bind_Ok {A B : Type} (m : JS A) (k : A -> JS B) (n : nat) (b : B) (n' : nat) :
  bind m k n = Ok b n' ->
  exists a n1, m n = Ok a n1 /\ k a n1 = Ok b n'.
Proof.
  unfold bind. destruct (m n) as [a n1| |]; try discriminate. eauto.
Qed.

Lemma bind_Diverge {A B : Type} (m : JS A) (k : A -> JS B) (n : nat) :
  bind m k n = Diverge ->
  m n = Diverge \/ exists a n1, m n = Ok a n1 /\ k a n1 = Diverge.
Proof.
  unfold bind. destruct (m n) as [a n1| |]; try discriminate; eauto.
Qed.

Lemma bind_not_Diverge {A B : Type} (m : JS A) (k : A -> JS B) (n : nat) :
  m n <> Diverge ->
  (forall a n1, m n = Ok a n1 -> k a n1 <> Diverge) ->
  bind m k n <> Diverge.
Proof.
  intros Hm Hk H. apply bind_Diverge in H.
  destruct H as [H|(a & n1 & H1 & H2)]; [auto | exact (Hk a n1 H1 H2)].
Qed.

Lemma index_Ok {A : Type} (l : list A) (i : nat) (n : nat) (a : A) (n' : nat) :
  index l i n = Ok a n' -> nth_error l i = Some a /\ n' = n.
Proof.
  unfold index. destruct (nth_error l i); unfold ret, throw; intros H; inversion H; auto.
Qed.

Lemma index_not_Diverge {A : Type} (l : list A) (i : nat) (n : nat) :
  index l i n <> Diverge.
Proof. unfold index. destruct (nth_error l i); discriminate. Qed.

(** ** Seam cutter: structure of one turn of the scan *)

Section CutterFacts.

Context {num : Type} {NUM : Number num}.

Lemma searchBack_unfold (segments : list (segment num)) (i j : nat) :
  searchBack segments i j =
  (sj <- index segments j ;;
   sn <- index segments (i + 1) ;;
   l1a <- deref (fst sj) ;;
   l1b <- deref (snd sj) ;;
   l2a <- deref (fst sn) ;;
   l2b <- deref (snd sn) ;;
   if intersects l1a l1b l2a l2b then
     p <- intersection l1a l1b l2a l2b ;;
     ret (j + 1, clipped segments i j p)
   else
     match j with
     | O => ret (i + 1, splice (i + 1) 1 segments)
     | S j' => searchBack segments i j'
     end).
Proof. destruct j; reflexivity. Qed.

Lemma deref_Ok (v : value num) (n : nat) (p : point num) (n' : nat) :
  deref v n = Ok p n' -> v = Some p /\ n' = n.
Proof.
  destruct v; unfold deref, ret, throw; intros H; inversion H; auto.
Qed.

Lemma deref_not_Diverge (v : value num) (n : nat) : deref v n <> Diverge.
Proof. destruct v; discriminate. Qed.

Lemma intersection_not_Diverge (a b c d : point num) (n : nat) :
  intersection a b c d n <> Diverge.
Proof.
  unfold intersection.
  destruct (lineEquation a b) as [[?|? ?]|], (lineEquation c d) as [[?|? ?]|];
    try discriminate.
  destruct (neqb _ _); discriminate.
Qed.

(** The search ends in a clip at some [k <= j] or in the removal of [i+1]. *)
Lemma searchBack_cases (j : nat) (segments : list (segment num)) (i : nat) (n : nat)
  (i' : nat) (segments' : list (segment num)) (n' : nat) :
  searchBack segments i j n = Ok (i', segments') n' ->
  (exists k p, k <= j /\ i' = k + 1 /\ segments' = clipped segments i k p) \/
  (i' = i + 1 /\ segments' = splice (i + 1) 1 segments /\ n' = n).
Proof.
  induction j as [|j IH]; rewrite searchBack_unfold; intros H;
    apply bind_Ok in H; destruct H as (sj & n1 & Hsj & H);
    apply bind_Ok in H; destruct H as (sn & n2 & Hsn & H);
    apply bind_Ok in H; destruct H as (l1a & n3 & H1a & H);
    apply bind_Ok in H; destruct H as (l1b & n4 & H1b & H);
    apply bind_Ok in H; destruct H as (l2a & n5 & H2a & H);
    apply bind_Ok in H; destruct H as (l2b & n6 & H2b & H);
    apply index_Ok in Hsj, Hsn; apply deref_Ok in H1a, H1b, H2a, H2b;
    destruct Hsj as [_ ->], Hsn as [_ ->], H1a as [_ ->], H1b as [_ ->],
             H2a as [_ ->], H2b as [_ ->];
    destruct (intersects l1a l1b l2a l2b).
  - apply bind_Ok in H; destruct H as (p & n7 & _ & H). inversion H; subst.
    left. exists 0, p. auto.
  - inversion H; subst. right. auto.
  - apply bind_Ok in H; destruct H as (p & n7 & _ & H). inversion H; subst.
    left. exists (S j), p. auto.
  - apply IH in H. destruct H as [(k & p & Hk & ? & ?)|?]; auto.
    left. exists k, p. auto.
Qed.

Lemma searchBack_not_Diverge (j : nat) (segments : list (segment num)) (i : nat) (n : nat) :
  searchBack segments i j n <> Diverge.
Proof.
  revert n. induction j as [|j IH]; intros n; rewrite searchBack_unfold;
    repeat (apply bind_not_Diverge;
            [ first [apply index_not_Diverge | apply deref_not_Diverge] | intros ? ? _ ]);
    destruct (intersects _ _ _ _); try discriminate; auto;
    apply bind_not_Diverge;
    [ apply intersection_not_Diverge | discriminate | apply intersection_not_Diverge | discriminate ].
Qed.

Lemma clipped_length (segments : list (segment num)) (i k : nat) (p : value num) :
  k <= i -> i + 1 < length segments ->
  length (clipped segments i k p) = length segments - (i - k).
Proof.
  intros Hk Hi. unfold clipped.
  destruct (Nat.ltb_spec k i).
  - rewrite splice_length; rewrite !update_length; lia.
  - rewrite !update_length. lia.
Qed.


Lemma cutStep_cases (segments : list (segment num)) (i n i' : nat)
  (segments' : list (segment num)) (n' : nat) :
  cutStep segments i n = Ok (i', segments') n' ->
  (i' = i + 1 /\ segments' = segments) \/
  (exists k p, k <= i /\ i' = k + 1 /\ segments' = clipped segments i k p) \/
  (i' = i + 1 /\ segments' = splice (i + 1) 1 segments).
Proof.
  unfold cutStep. intros H.
  apply bind_Ok in H; destruct H as (si & n1 & _ & H).
  apply bind_Ok in H; destruct H as (sn & n2 & _ & H).
  destruct (same_object (snd si) (fst sn)).
  - inversion H; subst. auto.
  - apply searchBack_cases in H. destruct H as [H|(? & ? & _)]; auto.
Qed.

Lemma cutStep_not_Diverge (segments : list (segment num)) (i n : nat) :
  cutStep segments i n <> Diverge.
Proof.
  unfold cutStep.
  repeat (apply bind_not_Diverge; [apply index_not_Diverge | intros ? ? _]).
  destruct (same_object _ _); [discriminate | apply searchBack_not_Diverge].
Qed.

(** The measure of the scan: what is left of the array past the cursor. *)
Lemma cutStep_measure (segments : list (segment num)) (i n i' : nat)
  (segments' : list (segment num)) (n' : nat) :
  i + 1 < length segments ->
  cutStep segments i n = Ok (i', segments') n' ->
  length segments' - i' < length segments - i /\
  length segments' <= length segments /\
  (i < i' \/ length segments' < length segments).
Proof.
  intros Hi H. apply cutStep_cases in H.
  destruct H as [[-> ->]|[(k & p & Hk & -> & ->)|[-> ->]]].
  - lia.
  - rewrite clipped_length by lia. lia.
  - rewrite splice_length by lia. lia.
Qed.

Lemma cutLoop_0 (segments : list (segment num)) (i : nat) :
  cutLoop 0 segments i =
  if (length segments <=? i + 1)%nat then ret segments else diverge.
Proof. reflexivity. Qed.

Lemma cutLoop_S (fuel : nat) (segments : list (segment num)) (i : nat) :
  cutLoop (S fuel) segments i =
  if (length segments <=? i + 1)%nat then ret segments
  else ('(i', segments') <- cutStep segments i ;; cutLoop fuel segments' i').
Proof. reflexivity. Qed.

Lemma cutLoop_not_Diverge (fuel : nat) :
  forall (segments : list (segment num)) (i n : nat),
    length segments - i <= fuel -> cutLoop fuel segments i n <> Diverge.
Proof.
  induction fuel as [|fuel IH]; intros segments i n Hm;
    [rewrite cutLoop_0 | rewrite cutLoop_S];
    destruct (Nat.leb_spec (length segments) (i + 1)); try discriminate; try lia.
  apply bind_not_Diverge; [apply cutStep_not_Diverge|].
  intros [i' segments'] n1 Hstep.
  apply IH. apply cutStep_measure in Hstep; lia.
Qed.


(** C8. The scan of the seam cutter terminates on every segment array: a turn
    of the outer loop that completes either advances the cursor or strictly
    shrinks the array (it never grows it, and what is left past the cursor
    strictly decreases), the backward search never diverges, and with fuel
    for [length segments] turns the cutter never runs out of fuel. *)
Theorem cutInnerAngles_terminates (segments : list (segment num)) :
  (forall i n i' segments' n',
      i + 1 < length segments ->
      cutStep segments i n = Ok (i', segments') n' ->
      (i < i' \/ length segments' < length segments) /\
      length segments' <= length segments /\
      length segments' - i' < length segments - i) /\
  (forall i n, cutStep segments i n <> Diverge) /\
  (forall fuel n, length segments <= fuel -> cutInnerAngles fuel segments n <> Diverge).
Proof.
  split; [|split].
  - intros i n i' segments' n' Hi H.
    destruct (cutStep_measure _ _ _ _ _ _ Hi H) as (? & ? & ?). auto.
  - apply cutStep_not_Diverge.
  - intros fuel n Hf. unfold cutInnerAngles.
    apply bind_not_Diverge; [apply cutLoop_not_Diverge; lia|].
    intros out n1 _.
    apply bind_not_Diverge; [apply index_not_Diverge | discriminate].
Qed.


Lemma searchBack_no_crossing (j : nat) (segments : list (segment num)) (i n : nat) :
  (forall k, k <= j -> properlyIntersects segments k (i + 1) = Some false) ->
  searchBack segments i j n = Ok (i + 1, splice (i + 1) 1 segments) n.
Proof.
  induction j as [|j IH]; intros Hno; rewrite searchBack_unfold.
  - specialize (Hno 0 (le_n 0)). unfold properlyIntersects in Hno.
    unfold bind, index.
    destruct (nth_error segments 0) as [[[a|] [b|]]|]; try discriminate.
    destruct (nth_error segments (i + 1)) as [[[c|] [d|]]|]; try discriminate.
    simpl. inversion Hno as [Hi]. now rewrite Hi.
  - pose proof (Hno (S j) (le_n _)) as HS. unfold properlyIntersects in HS.
    unfold bind, index.
    destruct (nth_error segments (S j)) as [[[a|] [b|]]|]; try discriminate.
    destruct (nth_error segments (i + 1)) as [[[c|] [d|]]|]; try discriminate.
    simpl. inversion HS as [Hi]. rewrite Hi. apply IH. intros k Hk. apply Hno. lia.
Qed.

(** X21. In any number model: when the pair at the cursor is not linked and
    the backward search reaches index 0 without a proper intersection with
    segment [i+1], the turn removes exactly the segment at [i+1], allocates
    nothing, and moves the cursor on to [i+1]; it does not stay at [i]. *)
Theorem cutStep_drops_and_advances (segments : list (segment num)) (i n : nat) :
  linked segments i = Some false ->
  noEarlierCrossing segments i = true ->
  cutStep segments i n =
  Ok (i + 1, firstn (i + 1) segments ++ skipn (i + 2) segments) n.
Proof.
  intros Hl Hno. unfold cutStep, bind, index. unfold linked in Hl.
  destruct (nth_error segments i) as [si|]; try discriminate.
  destruct (nth_error segments (i + 1)) as [sn|]; try discriminate.
  simpl. inversion Hl as [Hs]. rewrite Hs.
  rewrite searchBack_no_crossing.
  - unfold splice. now replace (i + 1 + 1) with (i + 2) by lia.
  - intros k Hk. unfold noEarlierCrossing in Hno.
    rewrite forallb_forall in Hno. specialize (Hno k).
    destruct (properlyIntersects segments k (i + 1)) as [[|]|]; auto;
      assert (false = true) by (apply Hno; apply in_seq; lia); discriminate.
Qed.

Lemma cutStep_linked (segments : list (segment num)) (i n : nat) :
  linked segments i = Some true ->
  cutStep segments i n = Ok (i + 1, segments) n.
Proof.
  unfold linked, cutStep, bind, index. intros H.
  destruct (nth_error segments i) as [si|]; try discriminate.
  destruct (nth_error segments (i + 1)) as [sn|]; try discriminate.
  simpl. inversion H as [Hs]. now rewrite Hs.
Qed.

Lemma cutLoop_linked (fuel : nat) :
  forall (segments : list (segment num)) (i n : nat),
    (forall k, i <= k -> k + 1 < length segments -> linked segments k = Some true) ->
    length segments - i <= S fuel ->
    cutLoop fuel segments i n = Ok segments n.
Proof.
  induction fuel as [|fuel IH]; intros segments i n Hl Hf;
    [rewrite cutLoop_0 | rewrite cutLoop_S];
    destruct (Nat.leb_spec (length segments) (i + 1)); try reflexivity; try lia.
  unfold bind. rewrite cutStep_linked by (apply Hl; lia).
  apply IH; [|lia]. intros k Hk. apply Hl. lia.
Qed.

Lemma linked_chain (P : list (point num)) (k : nat) :
  k + 1 < length (pairs P) ->
  linked (map asSegment (pairs P)) k = Some true.
Proof.
  rewrite pairs_length. intros Hk. unfold linked.
  destruct (nth_error P k) as [a|] eqn:Ea;
    [|apply nth_error_None in Ea; lia].
  destruct (nth_error P (S k)) as [b|] eqn:Eb;
    [|apply nth_error_None in Eb; lia].
  destruct (nth_error P (S (S k))) as [c|] eqn:Ec;
    [|apply nth_error_None in Ec; lia].
  rewrite !nth_error_map.
  rewrite (nth_error_pairs P k a b Ea Eb).
  replace (k + 1) with (S k) by lia.
  rewrite (nth_error_pairs P (S k) b c Eb Ec).
  simpl. now rewrite Nat.eqb_refl.
Qed.

(** The seam cutter leaves a chain alone: when every segment starts at the
    very object its predecessor ends at, the points come back unchanged and
    nothing is allocated. *)
Lemma cutInnerAngles_chain (fuel : nat) (a b : point num) (l : list (point num)) (n : nat) :
  length l <= fuel ->
  cutInnerAngles fuel (map asSegment (pairs (a :: b :: l))) n =
  Ok (map Some (a :: b :: l)) n.
Proof.
  intros Hf. unfold cutInnerAngles, bind.
  rewrite cutLoop_linked.
  - rewrite pairs_cons2. simpl map at 1. unfold index, ret. simpl nth_error.
    cbv iota beta. rewrite <- pairs_cons2.
    rewrite map_map.
    assert (E : map (fun x => snd (asSegment x)) (pairs (a :: b :: l))
                = map Some (map snd (pairs (a :: b :: l)))).
    { rewrite map_map. reflexivity. }
    rewrite E, map_snd_pairs. reflexivity.
  - intros k _ Hk. rewrite length_map in Hk. now apply linked_chain.
  - rewrite length_map, pairs_length. simpl. lia.
Qed.

(** A turn whose search hits at once, at [j = i]. *)
Lemma cutStep_clip (segments : list (segment num)) (i n : nat)
  (a b c d : point num) (p : value num) (n' : nat) :
  nth_error segments i = Some (Some a, Some b) ->
  nth_error segments (i + 1) = Some (Some c, Some d) ->
  Nat.eqb (pid b) (pid c) = false ->
  intersects a b c d = true ->
  intersection a b c d n = Ok p n' ->
  cutStep segments i n = Ok (i + 1, clipped segments i i p) n'.
Proof.
  intros Ei En Hid Hx Hp. unfold cutStep, bind, index. rewrite Ei, En. simpl.
  rewrite Hid. rewrite searchBack_unfold. unfold bind, index. rewrite Ei, En. simpl.
  rewrite Hx, Hp. reflexivity.
Qed.

(** X1. Idempotence on a clean chain: when every segment of a non-empty
    array starts at the very object its predecessor ends at, the seam cutter
    (with fuel for [length segments] turns) changes nothing, allocates
    nothing, and returns the first start point followed by every end
    point. *)
Theorem cutInnerAngles_linked_unchanged (fuel : nat) (s0 : segment num)
  (rest : list (segment num)) (n : nat) :
  (forall k, k + 1 < length (s0 :: rest) -> linked (s0 :: rest) k = Some true) ->
  length (s0 :: rest) <= fuel ->
  cutInnerAngles fuel (s0 :: rest) n = Ok (fst s0 :: map snd (s0 :: rest)) n.
Proof.
  intros Hl Hf. unfold cutInnerAngles, bind.
  rewrite cutLoop_linked.
  - reflexivity.
  - intros k _ Hk. now apply Hl.
  - lia.
Qed.

End CutterFacts.

(** ** Seam cutter: runs on binary64 inputs *)

Example cutInnerAngles_inner_corner :
  cutInnerAngles 2 inner_corner 4 =
  Ok [Some (fpt 0 0 0); Some (fpt 4 8 0); Some (fpt 3 8 10)] 5.
Proof. vm_compute. reflexivity. Qed.

Example cutInnerAngles_collinear_run :
  cutInnerAngles 3 collinear_run 6 =
  Ok [Some (fpt 0 0 0); Some (fpt 1 1 0); Some (fpt 5 2 5)] 6.
Proof. vm_compute. reflexivity. Qed.

Example cutInnerAngles_empty :
  cutInnerAngles 0 (@nil (segment float)) 0 = TypeError.
Proof. reflexivity. Qed.

Example cutInnerAngles_backtrack_run :
  cutInnerAngles 3 backtrack_run 5 =
  Ok [Some (fpt 0 0 0); Some (fpt 5 5 0); Some (fpt 4 5 20)] 6.
Proof. vm_compute. reflexivity. Qed.

Example intersects_crossing_float :
  intersects (fpt 0 0 0) (fpt 1 10 0) (fpt 2 5 (-1)) (fpt 3 5 1) = true.
Proof. vm_compute. reflexivity. Qed.

Example intersects_touching_float :
  intersects (fpt 0 0 0) (fpt 1 10 0) (fpt 2 5 0) (fpt 3 5 1) = false.
Proof. vm_compute. reflexivity. Qed.

Example intersection_diagonals_float :
  intersection (fpt 0 0 0) (fpt 1 10 10) (fpt 2 0 10) (fpt 3 10 0) 4 =
  Ok (Some (fpt 4 5 5)) 5.
Proof. vm_compute. reflexivity. Qed.

Example intersection_same_vertical_float :
  intersection (fpt 0 1 0) (fpt 1 1 1) (fpt 2 1 2) (fpt 3 1 3) 4 = Ok None 4.
Proof. vm_compute. reflexivity. Qed.

Example lineEquation_float :
  lineEquation (fpt 0 1 0) (fpt 1 3 4) = Some (Sloped (float_lit 2) (float_lit (-2))) /\
  lineEquation (fpt 0 1 0) (fpt 1 1 4) = Some (Vertical (float_lit 1)) /\
  lineEquation (fpt 0 1 0) (fpt 1 1 0) = None.
Proof. vm_compute. auto. Qed.

Lemma cutStep_drops_and_advances_witness :
  linked collinear_run 0 = Some false /\
  noEarlierCrossing collinear_run 0 = true /\
  cutStep collinear_run 0 6 =
  Ok (1, [fseg (fpt 0 0 0) (fpt 1 1 0); fseg (fpt 4 2 0) (fpt 5 2 5)]) 6.
Proof.
  split; [reflexivity|]. split; [vm_compute; reflexivity|].
  apply (cutStep_drops_and_advances collinear_run 0 6).
  - reflexivity.
  - vm_compute; reflexivity.
Defined.

Lemma cutInnerAngles_linked_unchanged_witness :
  cutInnerAngles 2 linked_pair 3 =
  Ok [Some (fpt 0 0 0); Some (fpt 1 10 0); Some (fpt 2 10 10)] 3.
Proof.
  apply (cutInnerAngles_linked_unchanged 2
           (fseg (fpt 0 0 0) (fpt 1 10 0)) [fseg (fpt 1 10 0) (fpt 2 10 10)] 3).
  - intros [|k] Hk; [reflexivity | simpl in Hk; lia].
  - simpl; lia.
Defined.


(** ** Segment offsetter and the empty pipeline *)

Section PipelineFacts.

Context {num : Type} {NUM : Number num} {MATH : MathLib num}.

Lemma arcPoints_unfold (fuel : nat) (c : point num) (d alpha e step : num) :
  arcPoints fuel c d alpha e step =
  if nltb alpha e then
    match fuel with
    | O => diverge
    | S fuel' =>
        p <- translatePoint c d alpha ;;
        rest <- arcPoints fuel' c d (nadd alpha step) e step ;;
        ret (p :: rest)
    end
  else ret [].
Proof. destruct fuel; reflexivity. Qed.

(** More fuel does not change what the loop of [circularArc] returns. *)
Lemma arcPoints_mono (fuel : nat) :
  forall (c : point num) (d alpha e step : num) (n : nat) (pts : list (point num)) (n' : nat),
    arcPoints fuel c d alpha e step n = Ok pts n' ->
    forall fuel', fuel <= fuel' -> arcPoints fuel' c d alpha e step n = Ok pts n'.
Proof.
  induction fuel as [|fuel IH]; intros c d alpha e step n pts n' H fuel' Hf;
    rewrite arcPoints_unfold in H; rewrite arcPoints_unfold;
    destruct (nltb alpha e); try exact H; try discriminate H.
  destruct fuel' as [|fuel']; [lia|].
  apply bind_Ok in H. destruct H as (p & n1 & Hp & H).
  apply bind_Ok in H. destruct H as (rest & n2 & Hrest & H).
  unfold bind. rewrite Hp.
  rewrite (IH _ _ _ _ _ _ _ _ Hrest fuel') by lia. exact H.
Qed.

Lemma arcPoints_not_TypeError (fuel : nat) :
  forall (c : point num) (d alpha e step : num) (n : nat),
    arcPoints fuel c d alpha e step n <> TypeError.
Proof.
  induction fuel as [|fuel IH]; intros c d alpha e step n;
    rewrite arcPoints_unfold; destruct (nltb alpha e); try discriminate.
  unfold bind, translatePoint, newPoint.
  specialize (IH c d (nadd alpha step) e step (S n)).
  destruct (arcPoints fuel c d (nadd alpha step) e step (S n));
    [discriminate | congruence | discriminate].
Qed.

Lemma pairs_nonempty {A : Type} (a b : A) (l : list A) :
  pairs (a :: l ++ [b]) <> [].
Proof. destruct l; discriminate. Qed.

(** The three branches of [circularArc], in any number model: nothing on
    identical headings or on an inner turn, otherwise (when the loop ends)
    at least one segment. *)
Lemma circularArc_branches (fuel : nat) (s1 s2 : OffsetSegment num) (d : num) (n : nat) :
  if (neqb (offsetAngle s1) (offsetAngle s2)
      || nltb (nlit 0) (nmul (getSignedAngle (offset s1) (offset s2)) d))%bool
  then circularArc fuel s1 s2 d n = Ok [] n
  else circularArc fuel s1 s2 d n = Diverge \/
       exists segs n', circularArc fuel s1 s2 d n = Ok segs n' /\ segs <> [].
Proof.
  unfold circularArc.
  destruct (neqb (offsetAngle s1) (offsetAngle s2)); [reflexivity|].
  destruct (nltb (nlit 0) (nmul (getSignedAngle (offset s1) (offset s2)) d));
    [reflexivity|].
  cbn [orb]. unfold bind.
  match goal with |- context [arcPoints ?f ?c ?dd ?a ?e ?st n] =>
    pose proof (arcPoints_not_TypeError f c dd a e st n) as HT;
    destruct (arcPoints f c dd a e st n) as [arc n'| |] end;
    [|congruence|left; reflexivity].
  right. eexists _, _. split; [reflexivity|].
  destruct (nltb (nlit 0) d).
  - rewrite rev_app_distr. cbn [rev app]. apply pairs_nonempty.
  - cbn [app]. apply pairs_nonempty.
Qed.

Lemma offsetPair_coincident (distance : num) (acc : list (OffsetSegment num))
  (a b : point num) (n : nat) :
  coincident a b = true -> offsetPair distance acc a b n = Ok acc n.
Proof. unfold offsetPair, coincident. intros ->. reflexivity. Qed.

Lemma offsetPair_distinct (distance : num) (acc : list (OffsetSegment num))
  (a b : point num) (n : nat) :
  coincident a b = false ->
  exists s,
    offsetPair distance acc a b n = Ok (acc ++ [s]) (S (S n)) /\
    offsetOf distance (a, b) s /\
    pid (fst (offset s)) = n /\ pid (snd (offset s)) = S n.
Proof.
  unfold offsetPair, coincident. intros ->.
  eexists. split; [reflexivity|]. unfold offsetOf; simpl. repeat split.
Qed.

Lemma offsetPointLine_from (distance : num) (ps : list (point num * point num)) :
  forall (acc : list (OffsetSegment num)) (n : nat),
  exists segs n',
    forEachPair_from ps (offsetPair distance) acc n = Ok (acc ++ segs) n' /\
    Forall2 (offsetOf distance) (filter distinctPair ps) segs.
Proof.
  induction ps as [|[a b] ps IH]; intros acc n; simpl.
  - exists [], n. rewrite app_nil_r. split; [reflexivity | constructor].
  - unfold distinctPair at 1. simpl fst; simpl snd. unfold bind.
    destruct (coincident a b) eqn:Hc; simpl.
    + rewrite offsetPair_coincident by exact Hc. apply IH.
    + destruct (offsetPair_distinct distance acc a b n Hc) as (s & E & Hs & _).
      rewrite E.
      destruct (IH (acc ++ [s]) (S (S n))) as (segs & n' & E' & HF).
      exists (s :: segs), n'. split.
      * rewrite E'. now rewrite <- app_assoc.
      * constructor; assumption.
Qed.

Lemma offsetPointLine_returns (points : list (point num)) (distance : num) (n : nat) :
  exists segs n',
    offsetPointLine points distance n = Ok segs n' /\
    Forall2 (offsetOf distance) (filter distinctPair (pairs points)) segs.
Proof.
  unfold offsetPointLine, forEachPair.
  destruct (offsetPointLine_from distance (pairs points) [] n) as (segs & n' & E & HF).
  exists segs, n'. simpl in E. split; [exact E | exact HF].
Qed.

(** C5. The segment offsetter never fails and returns, in path order, exactly
    one OffsetSegment for each consecutive pair (a, b) of the input that is
    not a pair of identical points: its heading is
    [atan2(a.y - b.y, a.x - b.x) - PI/2] and its two offset endpoints are a and
    b translated by [distance] along that heading.  Pairs of identical points
    contribute nothing, and an input of fewer than two points gives the empty
    list. *)
Theorem offsetPointLine_spec (points : list (point num)) (distance : num) (n : nat) :
  exists segs n',
    offsetPointLine points distance n = Ok segs n' /\
    Forall2 (offsetOf distance) (filter distinctPair (pairs points)) segs /\
    length segs = length (filter distinctPair (pairs points)) /\
    (forallb (fun ab => coincident (fst ab) (snd ab)) (pairs points) = true -> segs = []) /\
    (length points <= 1 -> segs = []).
Proof.
  destruct (offsetPointLine_returns points distance n) as (segs & n' & E & HF).
  exists segs, n'. split; [exact E|]. split; [exact HF|].
  assert (HL : length segs = length (filter distinctPair (pairs points)))
    by (symmetry; eapply Forall2_length; eauto).
  split; [exact HL|]. split.
  - intros Hall.
    assert (Hnil : filter distinctPair (pairs points) = []).
    { clear - Hall. induction (pairs points) as [|ab l IH]; simpl in *; auto.
      apply andb_true_iff in Hall. destruct Hall as [H1 H2].
      unfold distinctPair at 1. rewrite H1. simpl. auto. }
    rewrite Hnil in HL. destruct segs; [reflexivity | discriminate].
  - intros Hlen.
    assert (Hnil : pairs points = []) by (destruct points as [|a [|b l]]; simpl in *; auto; lia).
    rewrite Hnil in HL. destruct segs; [reflexivity | discriminate].
Qed.

(** C10. On the empty OffsetSegment list [joinLineSegments] returns the empty
    point sequence, whatever the join and cut methods are (it reaches
    neither: the seam cutter itself throws on an empty array), allocating
    nothing; and a path without two distinct consecutive points goes through
    the whole pipeline to the empty sequence. *)
Theorem joinLineSegments_empty :
  (forall joinOuter cutInner (dist : num) n,
      joinLineSegmentsWith joinOuter cutInner [] dist n = Ok [] n) /\
  (forall fuel (dist : num) n, joinLineSegments fuel [] dist n = Ok [] n) /\
  (forall fuel n, cutInnerAngles fuel (@nil (segment num)) n = TypeError) /\
  (forall fuel (pts : list (point num)) (dist : num) n,
      forallb (fun ab => coincident (fst ab) (snd ab)) (pairs pts) = true ->
      offsetPointLine pts dist n = Ok [] n /\
      offsetPoints fuel pts dist n = Ok [] n).
Proof.
  split; [reflexivity|]. split; [reflexivity|]. split.
  - intros [|fuel] n; reflexivity.
  - intros fuel pts dist n Hall.
    assert (E : offsetPointLine pts dist n = Ok [] n).
    { unfold offsetPointLine, forEachPair.
      generalize (@nil (OffsetSegment num)).
      induction (pairs pts) as [|[a b] l IH]; intros acc; simpl in *; [reflexivity|].
      apply andb_true_iff in Hall. destruct Hall as [H1 H2].
      unfold bind. rewrite offsetPair_coincident by exact H1. now apply IH. }
    split; [exact E|]. unfold offsetPoints, bind. rewrite E. reflexivity.
Qed.

End PipelineFacts.

(** ** More on lists *)

Lemma Forall_firstn {A : Type} (P : A -> Prop) (k : nat) (l : list A) :
  Forall P l -> Forall P (firstn k l).
Proof.
  revert k. induction l as [|a l IH]; intros [|k] H; simpl; auto.
  inversion H; subst. constructor; auto.
Qed.

Lemma Forall_skipn {A : Type} (P : A -> Prop) (k : nat) (l : list A) :
  Forall P l -> Forall P (skipn k l).
Proof.
  revert k. induction l as [|a l IH]; intros [|k] H; simpl; auto.
  inversion H; subst. auto.
Qed.

Lemma Forall_splice {A : Type} (P : A -> Prop) (start count : nat) (l : list A) :
  Forall P l -> Forall P (splice start count l).
Proof.
  intros H. unfold splice. apply Forall_app.
  split; [now apply Forall_firstn | now apply Forall_skipn].
Qed.

Lemma Forall_update {A : Type} (P : A -> Prop) (f : A -> A) (k : nat) (l : list A) :
  (forall a, P a -> P (f a)) -> Forall P l -> Forall P (update k f l).
Proof.
  intros Hf. revert k. induction l as [|a l IH]; intros [|k] H; simpl; auto;
    inversion H; subst; constructor; auto.
Qed.

Lemma forEachPair_from_cons {A B : Type} (a b : A) (ps : list (A * A))
  (callback : B -> A -> A -> JS B) (acc : B) :
  forEachPair_from ((a, b) :: ps) callback acc =
  (acc' <- callback acc a b ;; forEachPair_from ps callback acc').
Proof. reflexivity. Qed.



(** ** Binary64: signs of products *)

Lemma round_sign (s : bool) (mx ex : Z) (lx : location) :
  let r := binary_round_aux prec emax s mx ex lx in
  r = S754_zero s \/ r = S754_nan \/ r = S754_infinity s \/
  exists m e, r = S754_finite s m e.
Proof.
  unfold binary_round_aux.
  destruct (shr_fexp prec emax mx ex lx) as [mrs' e'].
  destruct (shr_fexp prec emax _ e' loc_Exact) as [mrs'' e''].
  destruct (shr_m mrs'') as [|m|m]; auto.
  destruct (Z.leb e'' (emax - prec)); [right; right; right; eauto | auto].
Qed.

Lemma zero_spec : Prim2SF (float_lit 0) = S754_zero false.
Proof. reflexivity. Qed.

Lemma ltb_zero_r (x : float) :
  PrimFloat.ltb x (float_lit 0) =
  match Prim2SF x with
  | S754_infinity s | S754_finite s _ _ => s
  | _ => false
  end.
Proof.
  rewrite FloatAxioms.ltb_spec, zero_spec.
  destruct (Prim2SF x) as [s|s| |s m e]; try reflexivity; destruct s; reflexivity.
Qed.

Lemma ltb_zero_l (x : float) :
  PrimFloat.ltb (float_lit 0) x =
  match Prim2SF x with
  | S754_infinity s | S754_finite s _ _ => negb s
  | _ => false
  end.
Proof.
  rewrite FloatAxioms.ltb_spec, zero_spec.
  destruct (Prim2SF x) as [s|s| |s m e]; try reflexivity; destruct s; reflexivity.
Qed.

Lemma eqb_zero (x : float) :
  PrimFloat.eqb x (float_lit 0) =
  match Prim2SF x with
  | S754_zero _ => true
  | _ => false
  end.
Proof.
  rewrite FloatAxioms.eqb_spec, zero_spec.
  destruct (Prim2SF x) as [s|s| |s m e]; try reflexivity; destruct s; reflexivity.
Qed.

Lemma eqb_self (x : float) :
  PrimFloat.eqb x x =
  match Prim2SF x with
  | S754_nan => false
  | _ => true
  end.
Proof.
  rewrite FloatAxioms.eqb_spec. unfold SFeqb, SFcompare.
  destruct (Prim2SF x) as [s|s| |s m e]; try reflexivity.
  - destruct s; reflexivity.
  - destruct s; rewrite Z.compare_refl, ?Pos.compare_cont_refl; reflexivity.
Qed.

(** A product is strictly negative only if its factors are of strictly
    opposite sign. *)
Lemma mul_negative (x y : float) :
  PrimFloat.ltb (PrimFloat.mul x y) (float_lit 0) = true ->
  oppositeSigns x y = true.
Proof.
  unfold oppositeSigns. cbn [nltb nlit float_Number].
  rewrite !ltb_zero_r, !ltb_zero_l, FloatAxioms.mul_spec. unfold SF64mul, SFmul.
  destruct (Prim2SF x) as [sx|sx| |sx mx ex], (Prim2SF y) as [sy|sy| |sy my ey];
    try discriminate; try (destruct sx, sy; simpl; congruence).
  pose proof (round_sign (xorb sx sy) (Zpos (mx * my)) (ex + ey) loc_Exact) as H.
  cbv zeta in H.
  destruct H as [H|[H|[H|(m & e & H)]]]; rewrite H; try discriminate;
    destruct sx, sy; simpl; congruence.
Qed.

(** A product with a zero factor, or with a NaN factor, is not strictly
    negative. *)
Lemma mul_zero_not_negative (x y : float) :
  PrimFloat.eqb x (float_lit 0) = true ->
  PrimFloat.ltb (PrimFloat.mul x y) (float_lit 0) = false /\
  PrimFloat.ltb (PrimFloat.mul y x) (float_lit 0) = false.
Proof.
  rewrite eqb_zero, !ltb_zero_r, !FloatAxioms.mul_spec. unfold SF64mul, SFmul.
  destruct (Prim2SF x) as [sx|sx| |sx mx ex]; try discriminate. intros _.
  destruct (Prim2SF y) as [sy|sy| |sy my ey]; auto.
Qed.

Lemma mul_nan_not_negative (x y : float) :
  PrimFloat.eqb x x = false ->
  PrimFloat.ltb (PrimFloat.mul x y) (float_lit 0) = false /\
  PrimFloat.ltb (PrimFloat.mul y x) (float_lit 0) = false.
Proof.
  rewrite eqb_self, !ltb_zero_r, !FloatAxioms.mul_spec. unfold SF64mul, SFmul.
  destruct (Prim2SF x) as [sx|sx| |sx mx ex]; try discriminate. intros _.
  destruct (Prim2SF y) as [sy|sy| |sy my ey]; auto.
Qed.

(** ** [intersects] on binary64 *)

Section IntersectsFacts.

Local Open Scope js_scope.

(** C6 (amended). On binary64, [intersects] returns true exactly when both
    products of the signed areas it computes are strictly negative.  When it
    returns true, the two endpoints of each segment have computed signed
    areas of strictly opposite sign with respect to the other segment.  It
    returns false as soon as one of the four computed signed areas is zero
    (an endpoint found collinear with the other segment). *)
Theorem intersects_opposite_signs (l1a l1b l2a l2b : point float) :
  (intersects l1a l1b l2a l2b = true <->
   (signedArea l1a l1b l2a * signedArea l1a l1b l2b <? nlit 0) = true /\
   (signedArea l2a l2b l1a * signedArea l2a l2b l1b <? nlit 0) = true) /\
  (intersects l1a l1b l2a l2b = true ->
   oppositeSigns (signedArea l1a l1b l2a) (signedArea l1a l1b l2b) = true /\
   oppositeSigns (signedArea l2a l2b l1a) (signedArea l2a l2b l1b) = true) /\
  ((signedArea l1a l1b l2a === nlit 0) || (signedArea l1a l1b l2b === nlit 0)
   || (signedArea l2a l2b l1a === nlit 0) || (signedArea l2a l2b l1b === nlit 0) = true ->
   intersects l1a l1b l2a l2b = false).
Proof.
  unfold intersects.
  set (a1 := signedArea l1a l1b l2a). set (a2 := signedArea l1a l1b l2b).
  set (b1 := signedArea l2a l2b l1a). set (b2 := signedArea l2a l2b l1b).
  cbn [nmul nltb neqb nlit float_Number].
  split; [apply andb_true_iff|]. split.
  - intros H. apply andb_true_iff in H. destruct H as [H1 H2].
    split; apply mul_negative; assumption.
  - intros H. apply andb_false_iff.
    repeat (apply orb_true_iff in H; destruct H as [H|H]).
    + left. exact (proj1 (mul_zero_not_negative a1 a2 H)).
    + left. exact (proj2 (mul_zero_not_negative a2 a1 H)).
    + right. exact (proj1 (mul_zero_not_negative b1 b2 H)).
    + right. exact (proj2 (mul_zero_not_negative b2 b1 H)).
Qed.

End IntersectsFacts.

(** C6 as stated fails on binary64, in both directions.  The segments
    (0.7, 0.2)-(0.1, 0.8) and (0.5, 0.4)-(0.1, 0.1) have their endpoints
    strictly on opposite sides of each other's line, and [intersects] is
    false: the signed area of (0.5, 0.4) is computed as 0.  The segments
    (0.4, -0.3)-(-0.8, 0.9) and (-0.6, 0.7)-(-0.3, -0.6) do not, and
    [intersects] is true. *)
Lemma intersects_counterexample :
  (crossExactly
     (mkPoint 0 0x1.6666666666666p-1 0x1.999999999999ap-3)%float
     (mkPoint 1 0x1.999999999999ap-4 0x1.999999999999ap-1)%float
     (mkPoint 2 0x1p-1 0x1.999999999999ap-2)%float
     (mkPoint 3 0x1.999999999999ap-4 0x1.999999999999ap-4)%float = true /\
   intersects
     (mkPoint 0 0x1.6666666666666p-1 0x1.999999999999ap-3)%float
     (mkPoint 1 0x1.999999999999ap-4 0x1.999999999999ap-1)%float
     (mkPoint 2 0x1p-1 0x1.999999999999ap-2)%float
     (mkPoint 3 0x1.999999999999ap-4 0x1.999999999999ap-4)%float = false) /\
  (crossExactly
     (mkPoint 0 0x1.999999999999ap-2 (-0x1.3333333333333p-2))%float
     (mkPoint 1 (-0x1.999999999999ap-1) 0x1.ccccccccccccdp-1)%float
     (mkPoint 2 (-0x1.3333333333333p-1) 0x1.6666666666666p-1)%float
     (mkPoint 3 (-0x1.3333333333333p-2) (-0x1.3333333333333p-1))%float = false /\
   intersects
     (mkPoint 0 0x1.999999999999ap-2 (-0x1.3333333333333p-2))%float
     (mkPoint 1 (-0x1.999999999999ap-1) 0x1.ccccccccccccdp-1)%float
     (mkPoint 2 (-0x1.3333333333333p-1) 0x1.6666666666666p-1)%float
     (mkPoint 3 (-0x1.3333333333333p-2) (-0x1.3333333333333p-1))%float = true).
Proof. vm_compute. repeat split. Qed.

(** ** [lineEquation] and [intersection] *)

Section IntersectionFacts.

Context {num : Type} {NUM : Number num}.
Local Open Scope js_scope.

Lemma lineEquation_sameX (a b : point num) :
  sameX a b = true ->
  lineEquation a b = if py a === py b then None else Some (Vertical (px a)).
Proof. unfold lineEquation, sameX. intros ->. reflexivity. Qed.

Lemma lineEquation_sloped (a b : point num) :
  sameX a b = false ->
  lineEquation a b = Some (Sloped (slopeOf a b) (interceptOf a b)).
Proof. unfold lineEquation, sameX. intros ->. reflexivity. Qed.

(** C7 (amended). In every number model [intersection] returns [null],
    allocating nothing, exactly in these cases: one of the point pairs is a
    pair of identical points ([===] on both coordinates); both lines are
    vertical (each pair has one [x]), at the same or at different [x]; or
    neither is vertical and the two computed slopes are [===].  In every
    other case it returns a new point: on a vertical line at that line's
    [x], with [y] from the other line's equation; otherwise at
    [x = (b2 - b1) / (a1 - a2)], [y = a1 * x + b1] for the computed slopes
    and intercepts.  A pair with one [x] is never given a slope: it is
    [null] or the separate form [Vertical], whatever division does. *)
Theorem intersection_cases (l1a l1b l2a l2b : point num) (n : nat) :
  (noUniqueIntersection l1a l1b l2a l2b = true ->
   intersection l1a l1b l2a l2b n = Ok None n) /\
  (noUniqueIntersection l1a l1b l2a l2b = false ->
   intersection l1a l1b l2a l2b n =
   Ok (Some
         (if sameX l1a l1b then
            mkPoint n (px l1a) (slopeOf l2a l2b * px l1a + interceptOf l2a l2b)
          else if sameX l2a l2b then
            mkPoint n (px l2a) (slopeOf l1a l1b * px l2a + interceptOf l1a l1b)
          else
            let x := (interceptOf l2a l2b - interceptOf l1a l1b)
                     / (slopeOf l1a l1b - slopeOf l2a l2b) in
            mkPoint n x (slopeOf l1a l1b * x + interceptOf l1a l1b)))
      (S n)) /\
  (forall a b : point num,
     sameX a b = true ->
     lineEquation a b = (if py a === py b then None else Some (Vertical (px a))) /\
     forall div, @lineEquation num (withDivision div) a b = lineEquation a b).
Proof.
  split; [|split].
  - unfold noUniqueIntersection, coincident, intersection. fold (sameX l1a l1b).
    fold (sameX l2a l2b).
    destruct (sameX l1a l1b) eqn:X1, (sameX l2a l2b) eqn:X2;
      rewrite ?(lineEquation_sameX _ _ X1), ?(lineEquation_sameX _ _ X2),
              ?(lineEquation_sloped _ _ X1), ?(lineEquation_sloped _ _ X2);
      cbn [andb orb negb];
      destruct (py l1a === py l1b), (py l2a === py l2b); cbn [andb orb negb];
      try reflexivity; try discriminate;
      rewrite ?orb_false_r; intros ->; reflexivity.
  - unfold noUniqueIntersection, coincident, intersection. fold (sameX l1a l1b).
    fold (sameX l2a l2b).
    destruct (sameX l1a l1b) eqn:X1, (sameX l2a l2b) eqn:X2;
      rewrite ?(lineEquation_sameX _ _ X1), ?(lineEquation_sameX _ _ X2),
              ?(lineEquation_sloped _ _ X1), ?(lineEquation_sloped _ _ X2);
      cbn [andb orb negb];
      destruct (py l1a === py l1b), (py l2a === py l2b); cbn [andb orb negb];
      try reflexivity; try discriminate;
      rewrite ?orb_false_r; intros ->; reflexivity.
  - intros a b H. split; [exact (lineEquation_sameX a b H)|].
    intros div. unfold lineEquation, sameX in *. cbn [neqb withDivision].
    rewrite H. reflexivity.
Qed.

End IntersectionFacts.

(** C7 as stated fails on binary64.  The lines through (0, 1), (3, 2) and
    through (0, 0), (1, 0.333...) (the number nearest to a third) are not
    parallel and neither pair is degenerate, and [intersection] returns
    [null]: both slopes are computed as the same number.  The lines through
    (9, 4), (5, 10) and through (8, 0), (7, 3) cross at (13/3, 11), and the
    point returned lies on neither of them. *)
Lemma intersection_counterexample :
  (samePositionExactly (fpt 0 0 1) (fpt 1 3 2) = false /\
   samePositionExactly (fpt 2 0 0) (mkPoint 3 1 0x1.5555555555555p-2)%float = false /\
   parallelExactly (fpt 0 0 1) (fpt 1 3 2) (fpt 2 0 0)
     (mkPoint 3 1 0x1.5555555555555p-2)%float = false /\
   intersection (fpt 0 0 1) (fpt 1 3 2) (fpt 2 0 0)
     (mkPoint 3 1 0x1.5555555555555p-2)%float 4 = Ok None 4) /\
  (exists p,
     intersection (fpt 0 9 4) (fpt 1 5 10) (fpt 2 8 0) (fpt 3 7 3) 4 = Ok (Some p) 5 /\
     onLineExactly p (fpt 0 9 4) (fpt 1 5 10) = false /\
     onLineExactly p (fpt 2 8 0) (fpt 3 7 3) = false).
Proof.
  split.
  - vm_compute. repeat split.
  - eexists. split; [vm_compute; reflexivity|]. vm_compute. split; reflexivity.
Qed.

(** ** The join resolver: which joins get an arc, and which arc *)

Section ArcFacts.

Context {num : Type} {NUM : Number num} {MATH : MathLib num}.
Local Open Scope js_scope.









End ArcFacts.

(** The two segments of [corner_path] as the offsetter returns them. *)
Example corner_offsets :
  offsetPointLine corner_path (float_lit (-5)) 3 = Ok [cornerFirst; cornerSecond] 7.
Proof. vm_compute. reflexivity. Qed.


(** The arc of [corner_path], with its three samples. *)
Example circularArc_corner :
  circularArc 16 cornerFirst cornerSecond (float_lit (-5)) 7 =
  Ok (pairs [mkPoint 4 10 (-5);
             mkPoint 7 0x1.7d3ab6a0b4a77p+3 (-0x1.27a43617f984cp+2);
             mkPoint 8 0x1.b12318007c2b0p+3 (-0x1.c48c6001f0ac0p+1);
             mkPoint 9 0x1.d3d21b0bfcc26p+3 (-0x1.e9d5b505a53bep+0);
             mkPoint 5 15 0x1.60fafbfd97309p-51])%float
     10.
Proof. vm_compute. reflexivity. Qed.



(** ** The seam cutter on shared arrays: agreement with the list model *)

Lemma nth_error_update_same {A : Type} (f : A -> A) (l : list A) (i : nat) (a : A) :
  nth_error l i = Some a -> nth_error (update i f l) i = Some (f a).
Proof.
  revert i. induction l as [|b l IH]; intros [|i] H; try discriminate; cbn in *.
  - now inversion H.
  - auto.
Qed.

Lemma nth_error_update_other {A : Type} (f : A -> A) (l : list A) (i k : nat) :
  i <> k -> nth_error (update i f l) k = nth_error l k.
Proof.
  revert i k. induction l as [|b l IH]; intros [|i] [|k] H; cbn; auto; congruence.
Qed.

Lemma NoDup_skipn {A : Type} (k : nat) (l : list A) : NoDup l -> NoDup (skipn k l).
Proof.
  revert k. induction l as [|a l IH]; intros [|k] H; simpl; auto.
  inversion H; subst. auto.
Qed.

Lemma NoDup_splice {A : Type} (start count : nat) (l : list A) :
  NoDup l -> NoDup (splice start count l).
Proof.
  revert start. induction l as [|a l IH]; intros start H.
  - unfold splice. rewrite firstn_nil, skipn_nil. constructor.
  - destruct start as [|start].
    + unfold splice. cbn [firstn app]. now apply NoDup_skipn.
    + rewrite splice_head. inversion H as [|? ? Hin Hnd]; subst. constructor; auto.
      intros Hin'. apply Hin.
      assert (HF : Forall (fun x => In x l) (splice start count l)).
      { apply Forall_splice. apply Forall_forall. auto. }
      rewrite Forall_forall in HF. auto.
Qed.

Lemma Forall2_firstn {A B : Type} (R : A -> B -> Prop) (k : nat) (l1 : list A)
  (l2 : list B) :
  Forall2 R l1 l2 -> Forall2 R (firstn k l1) (firstn k l2).
Proof.
  intros H. revert k. induction H; intros [|k]; simpl; constructor; auto.
Qed.

Lemma Forall2_skipn {A B : Type} (R : A -> B -> Prop) (k : nat) (l1 : list A)
  (l2 : list B) :
  Forall2 R l1 l2 -> Forall2 R (skipn k l1) (skipn k l2).
Proof.
  intros H. revert k. induction H; intros [|k]; simpl; auto.
Qed.

Section SharedFacts.

Context {num : Type} {NUM : Number num}.

Lemma standsFor_splice (h : heap num) (start count : nat) (refs : list nat)
  (segs : list (segment num)) :
  standsFor h refs segs ->
  standsFor h (splice start count refs) (splice start count segs).
Proof.
  intros H. unfold standsFor, splice. apply Forall2_app;
    [now apply Forall2_firstn | now apply Forall2_skipn].
Qed.

Lemma standsFor_nth (h : heap num) (refs : list nat) (segs : list (segment num)) :
  standsFor h refs segs ->
  forall k,
    match nth_error refs k with
    | Some r => exists s, nth_error segs k = Some s /\ nth_error h r = Some s
    | None => nth_error segs k = None
    end.
Proof.
  induction 1 as [|r s refs segs Hrs H IH]; intros [|k]; cbn;
    [reflexivity | reflexivity | eauto | apply IH].
Qed.

Lemma standsFor_frame (h : heap num) (refs : list nat) (segs : list (segment num))
  (r : nat) (f : segment num -> segment num) :
  standsFor h refs segs -> ~ In r refs -> standsFor (update r f h) refs segs.
Proof.
  induction 1 as [|r0 s0 refs segs Hrs H IH]; intros Hin; constructor.
  - rewrite nth_error_update_other; auto. intros ->. apply Hin. now left.
  - apply IH. intros Hr. apply Hin. now right.
Qed.

(** A write through one index changes the array at that index only, when no
    array stands at two indices. *)
Lemma standsFor_update (h : heap num) (refs : list nat) (segs : list (segment num))
  (f : segment num -> segment num) :
  standsFor h refs segs ->
  forall j r, NoDup refs -> nth_error refs j = Some r ->
    standsFor (update r f h) refs (update j f segs).
Proof.
  induction 1 as [|r0 s0 refs segs Hrs H IH]; intros j r Hnd Hj.
  - destruct j; discriminate.
  - inversion Hnd as [|? ? Hin Hnd']; subst. destruct j as [|j]; cbn in Hj |- *.
    + inversion Hj; subst. constructor.
      * now apply nth_error_update_same.
      * now apply standsFor_frame.
    + constructor.
      * rewrite nth_error_update_other; auto. intros ->. apply Hin.
        eapply nth_error_In; eauto.
      * now apply (IH j r).
Qed.

Lemma searchBackShared_unfold (h : heap num) (segments : list nat) (i j : nat) :
  searchBackShared h segments i j =
  (rj <- index segments j ;;
   rn <- index segments (i + 1) ;;
   sj <- index h rj ;;
   sn <- index h rn ;;
   l1a <- deref (fst sj) ;;
   l1b <- deref (snd sj) ;;
   l2a <- deref (fst sn) ;;
   l2b <- deref (snd sn) ;;
   if intersects l1a l1b l2a l2b then
     p <- intersection l1a l1b l2a l2b ;;
     ret (j + 1,
          if (j <? i)%nat then splice (j + 1) (i - j) segments else segments,
          update rn (setStart p) (update rj (setEnd p) h))
   else
     match j with
     | O => ret (i + 1, splice (i + 1) 1 segments, h)
     | S j' => searchBackShared h segments i j'
     end).
Proof. destruct j; reflexivity. Qed.

(** What a turn of the scan leaves: the cursor, and references without
    repetition that stand for the arrays of the list model. *)
Lemma searchBack_shared (j : nat) :
  forall (h : heap num) (refs : list nat) (segs : list (segment num)) (i n : nat),
    standsFor h refs segs -> NoDup refs ->
    sameRun (fun a b => fst (fst a) = fst b /\
                        standsFor (snd a) (snd (fst a)) (snd b) /\
                        NoDup (snd (fst a)))
            (searchBackShared h refs i j n) (searchBack segs i j n).
Proof.
  induction j as [|j IH]; intros h refs segs i n Hst Hnd;
    rewrite searchBackShared_unfold, searchBack_unfold; unfold bind, index;
    pose proof (standsFor_nth h refs segs Hst) as Hnth;
    [pose proof (Hnth 0) as Hj | pose proof (Hnth (S j)) as Hj];
    pose proof (Hnth (i + 1)) as Hn.
  all: match type of Hj with match ?x with _ => _ end =>
         destruct x as [rj|] eqn:Erj end;
       [destruct Hj as (sj & -> & Hhj) | rewrite Hj; exact I].
  all: destruct (nth_error refs (i + 1)) as [rn|] eqn:Ern;
       [destruct Hn as (sn & -> & Hhn) | rewrite Hn; exact I].
  all: unfold ret; cbv beta iota; rewrite Hhj, Hhn; cbv beta iota.
  all: destruct sj as [[a|] [b|]], sn as [[c|] [d|]]; cbn [fst snd deref];
       unfold throw, ret; cbv beta iota; try exact I.
  all: destruct (intersects a b c d).
  all: try (destruct (intersection a b c d n) as [p n1| |]; cbn [sameRun fst snd];
            try exact I; split; [|reflexivity]; split; [reflexivity|];
            unfold clipped;
            match goal with
            | |- context [update ?m (setStart ?q) (update ?k (setEnd ?q) ?l)] =>
                assert (Hup : standsFor (update rn (setStart q) (update rj (setEnd q) h))
                                refs
                                (update m (setStart q) (update k (setEnd q) l)))
                  by (apply standsFor_update; auto; apply standsFor_update; auto)
            end;
            match goal with |- context [(?a <? ?b)%nat] => destruct (a <? b)%nat end;
            split; auto using standsFor_splice, NoDup_splice).
  - cbn [sameRun fst snd]. split; [|reflexivity].
    split; [reflexivity|]. split; auto using standsFor_splice, NoDup_splice.
  - apply IH; auto.
Qed.

Lemma cutStep_shared (h : heap num) (refs : list nat) (segs : list (segment num))
  (i n : nat) :
  standsFor h refs segs -> NoDup refs ->
  sameRun (fun a b => fst (fst a) = fst b /\
                      standsFor (snd a) (snd (fst a)) (snd b) /\
                      NoDup (snd (fst a)))
          (cutStepShared h refs i n) (cutStep segs i n).
Proof.
  intros Hst Hnd. unfold cutStepShared, cutStep, bind, index.
  pose proof (standsFor_nth h refs segs Hst) as Hnth.
  pose proof (Hnth i) as Hi. pose proof (Hnth (i + 1)) as Hn.
  destruct (nth_error refs i) as [ri|];
    [destruct Hi as (si & -> & Hhi) | rewrite Hi; exact I].
  destruct (nth_error refs (i + 1)) as [rn|];
    [destruct Hn as (sn & -> & Hhn) | rewrite Hn; exact I].
  unfold ret; cbv beta iota. rewrite Hhi, Hhn. cbv beta iota.
  destruct (same_object (snd si) (fst sn)).
  - cbn. auto.
  - now apply searchBack_shared.
Qed.

Lemma cutLoop_shared (fuel : nat) :
  forall (h : heap num) (refs : list nat) (segs : list (segment num)) (i n : nat),
    standsFor h refs segs -> NoDup refs ->
    sameRun (fun a b => standsFor (snd a) (fst a) b)
            (cutLoopShared fuel h refs i n) (cutLoop fuel segs i n).
Proof.
  induction fuel as [|fuel IH]; intros h refs segs i n Hst Hnd;
    pose proof (Forall2_length Hst) as Hlen;
    cbn [cutLoopShared cutLoop]; rewrite Hlen;
    destruct (length segs <=? i + 1)%nat; cbn; auto.
  pose proof (cutStep_shared h refs segs i n Hst Hnd) as Hstep.
  unfold bind.
  destruct (cutStepShared h refs i n) as [[[i1 refs1] h1] n1| |],
           (cutStep segs i n) as [[i2 segs2] n2| |]; cbn in Hstep; try contradiction;
    try exact I.
  destruct Hstep as ((-> & Hst1 & Hnd1) & ->). now apply IH.
Qed.

Lemma readAll_standsFor (h : heap num) (refs : list nat) (segs : list (segment num)) :
  standsFor h refs segs -> forall n, readAll h refs n = Ok segs n.
Proof.
  induction 1 as [|r s refs segs Hrs H IH]; intros n; [reflexivity|].
  cbn [readAll]. unfold bind, index. rewrite Hrs. unfold ret at 1. cbv beta iota.
  now rewrite IH.
Qed.

(** On references without repetition the seam cutter does what it does on
    the list of the arrays they stand for. *)
Lemma cutInnerAnglesShared_list (fuel : nat) (h : heap num) (refs : list nat)
  (segs : list (segment num)) (n : nat) :
  standsFor h refs segs -> NoDup refs ->
  cutInnerAnglesShared fuel h refs n = cutInnerAngles fuel segs n.
Proof.
  intros Hst Hnd. unfold cutInnerAnglesShared, cutInnerAngles, bind.
  pose proof (cutLoop_shared fuel h refs segs 0 n Hst Hnd) as H.
  destruct (cutLoopShared fuel h refs 0 n) as [[refs1 h1] n1| |],
           (cutLoop fuel segs 0 n) as [segs1 n2| |]; cbn in H; try contradiction;
    try reflexivity.
  destruct H as (Hst1 & ->). now rewrite (readAll_standsFor h1 refs1 segs1 Hst1).
Qed.


End SharedFacts.


(** The run on [inner_corner], and a run that throws on arrays without a
    [null]: the clip point of the first two segments of [null_clip] is
    [null], and the next turn of the scan reads its [x]. *)
Example cutInnerAnglesShared_inner_corner :
  cutInnerAnglesShared 2 inner_corner inner_corner_run 4 =
  Ok [Some (fpt 0 0 0); Some (fpt 4 8 0); Some (fpt 3 8 10)] 5.
Proof. vm_compute. reflexivity. Qed.

Example cutInnerAngles_null_clip :
  cutInnerAngles 3 null_clip 6 = TypeError /\
  cutInnerAngles 2 (firstn 2 null_clip) 6 =
  Ok [Some (mkPoint 0 (-0x1.5fe7928cd48fcp+4) 0x1.60337873867fep+6)%float; None;
      Some (mkPoint 3 (-0x1.141d85abf9557p+6) 0x1.3a3b36a234a81p+5)%float] 6.
Proof. vm_compute. split; reflexivity. Qed.


(** ** Two segments through the pipeline *)

Section JoinFacts.

Context {num : Type} {NUM : Number num} {MATH : MathLib num}.

Lemma offsetPointLine_three (a b c : point num) (dist : num) (n : nat) :
  coincident a b = false -> coincident b c = false ->
  offsetPointLine [a; b; c] dist n =
  Ok [offsetSegmentOf a b dist n; offsetSegmentOf b c dist (n + 2)] (n + 4).
Proof.
  intros Hab Hbc. replace (n + 2) with (S (S n)) by lia.
  replace (n + 4) with (S (S (S (S n)))) by lia.
  unfold offsetPointLine, forEachPair. cbn [pairs forEachPair_from].
  unfold bind, offsetPair. fold (coincident a b). fold (coincident b c).
  rewrite Hab, Hbc. reflexivity.
Qed.

(** Without an arc, the seam cutter gets the two offset segments as they
    are. *)
Lemma joinLineSegments_two_no_arc (fuel : nat) (s1 s2 : OffsetSegment num) (d : num)
  (n : nat) :
  emitsNothing s1 s2 d = true ->
  joinLineSegments fuel [s1; s2] d n =
  cutInnerAngles fuel [asSegment (offset s1); asSegment (offset s2)] n.
Proof.
  intros He. unfold joinLineSegments, joinLineSegmentsWith, forEachPair.
  cbn [pairs forEachPair_from]. unfold bind at 1 2. unfold joinPair, joinOuterAngles.
  unfold bind at 1 2.
  pose proof (circularArc_branches fuel s1 s2 d n) as H.
  unfold emitsNothing in He. rewrite He in H. rewrite H. reflexivity.
Qed.

Lemma cutInnerAngles_two_drop (fuel : nat) (a b c d : point num) (n : nat) :
  Nat.eqb (pid b) (pid c) = false ->
  intersects a b c d = false ->
  cutInnerAngles (S fuel) [(Some a, Some b); (Some c, Some d)] n =
  Ok [Some a; Some b] n.
Proof.
  intros Hid Hx. unfold cutInnerAngles. cbn [cutLoop length Nat.leb Nat.add].
  unfold bind at 1 2. unfold cutStep, bind, index. cbn [nth_error Nat.add ret fst snd].
  cbn [same_object]. rewrite Hid. cbn [searchBack]. unfold bind, index.
  cbn [nth_error Nat.add ret fst snd deref]. rewrite Hx.
  destruct fuel; reflexivity.
Qed.

Lemma cutInnerAngles_two_clip (fuel : nat) (a b c d : point num) (n : nat) :
  Nat.eqb (pid b) (pid c) = false ->
  intersects a b c d = true ->
  cutInnerAngles (S fuel) [(Some a, Some b); (Some c, Some d)] n =
  (p <- intersection a b c d ;; ret [Some a; p; Some d]) n.
Proof.
  intros Hid Hx. unfold cutInnerAngles. cbn [cutLoop length Nat.leb Nat.add].
  unfold bind at 1 2. unfold cutStep, bind, index. cbn [nth_error Nat.add ret fst snd].
  cbn [same_object]. rewrite Hid. cbn [searchBack]. unfold bind, index.
  cbn [nth_error Nat.add ret fst snd deref]. rewrite Hx.
  destruct (intersection a b c d n) as [p n'| |]; [|reflexivity|reflexivity].
  destruct fuel; reflexivity.
Qed.

Lemma consecutive_offsets_unlinked (a b c : point num) (dist : num) (n : nat) :
  Nat.eqb (pid (snd (offset (offsetSegmentOf a b dist n))))
          (pid (fst (offset (offsetSegmentOf b c dist (n + 2))))) = false.
Proof. cbn [offsetSegmentOf offset fst snd pid]. apply Nat.eqb_neq. lia. Qed.

End JoinFacts.

(** ** Zero offset and the retry of the scan, on binary64 *)

(** C1. What the code does on the failing input: the straight path
    (0, 0), (1, 0), (2, 0), three point objects, offset by 0.  The two
    headings are [===], so no join is made; the end of the first offset
    segment and the start of the second are two objects at (1, 0), so the
    seam cutter does not take them as linked; the two segments do not
    properly intersect, so the second is removed.  The position (2, 0) is
    lost: the result is (0, 0), (1, 0). *)
Theorem offsetPoints_zero_straight_path (fuel : nat) :
  offsetPointLine straight_path (float_lit 0) 3 =
  Ok [offsetSegmentOf (fpt 0 0 0) (fpt 1 1 0) (float_lit 0) 3;
      offsetSegmentOf (fpt 1 1 0) (fpt 2 2 0) (float_lit 0) 5] 7 /\
  neqb (offsetAngle (offsetSegmentOf (fpt 0 0 0) (fpt 1 1 0) (float_lit 0) 3))
       (offsetAngle (offsetSegmentOf (fpt 1 1 0) (fpt 2 2 0) (float_lit 0) 5)) = true /\
  offsetPoints (S fuel) straight_path (float_lit 0) 3 =
  Ok [Some (fpt 3 0 0); Some (fpt 4 1 0)] 7.
Proof.
  split; [vm_compute; reflexivity|]. split; [vm_compute; reflexivity|].
  destruct fuel; vm_compute; reflexivity.
Qed.

(** C2. What the code does on the failing input [skipped_crossing], three
    unlinked segments from (0, 0) to (10, 0), from (20, 20) to (21, 21) and
    from (5, -5) to (5, 5).  At cursor 0 the search finds no intersection
    with the second segment, removes it and moves the cursor to 1, where the
    scan ends: the first and the third segment, now neighbours, are never
    tested, although they properly intersect; the result jumps from (10, 0)
    to (5, 5).  A turn at cursor 0 on the two segments left clips them at
    (5, 0). *)
Theorem cutInnerAngles_skips_pair (fuel : nat) :
  cutStep skipped_crossing 0 6 =
  Ok (1, [fseg (fpt 0 0 0) (fpt 1 10 0); fseg (fpt 4 5 (-5)) (fpt 5 5 5)]) 6 /\
  cutInnerAngles (S fuel) skipped_crossing 6 =
  Ok [Some (fpt 0 0 0); Some (fpt 1 10 0); Some (fpt 5 5 5)] 6 /\
  intersects (fpt 0 0 0) (fpt 1 10 0) (fpt 4 5 (-5)) (fpt 5 5 5) = true /\
  cutStep [fseg (fpt 0 0 0) (fpt 1 10 0); fseg (fpt 4 5 (-5)) (fpt 5 5 5)] 0 6 =
  Ok (1, [fseg (fpt 0 0 0) (fpt 6 5 0); fseg (fpt 6 5 0) (fpt 5 5 5)]) 7.
Proof.
  split; [vm_compute; reflexivity|]. split; [|split; vm_compute; reflexivity].
  destruct fuel; vm_compute; reflexivity.
Qed.

(** * Further properties of the code *)

(** ** Seam cutter: size and provenance of the result *)

Section CutterProvenance.

Context {num : Type} {NUM : Number num}.

Lemma intersection_alloc (a b c d : point num) (n : nat) (p : value num) (n' : nat) :
  intersection a b c d n = Ok p n' ->
  (p = None /\ n' = n) \/ (exists q, p = Some q /\ pid q = n /\ n' = S n).
Proof.
  unfold intersection.
  destruct (lineEquation a b) as [[?|? ?]|], (lineEquation c d) as [[?|? ?]|];
    try destruct (neqb _ _);
    intros H; inversion H; subst; auto; right; eexists; repeat split.
Qed.

Lemma searchBack_alloc (j : nat) (segments : list (segment num)) (i : nat) (n : nat)
  (i' : nat) (segments' : list (segment num)) (n' : nat) :
  searchBack segments i j n = Ok (i', segments') n' ->
  (exists k p, k <= j /\ i' = k + 1 /\ segments' = clipped segments i k p /\
     ((p = None /\ n' = n) \/ (exists q, p = Some q /\ pid q = n /\ n' = S n))) \/
  (i' = i + 1 /\ segments' = splice (i + 1) 1 segments /\ n' = n).
Proof.
  induction j as [|j IH]; rewrite searchBack_unfold; intros H;
    apply bind_Ok in H; destruct H as (sj & n1 & Hsj & H);
    apply bind_Ok in H; destruct H as (sn & n2 & Hsn & H);
    apply bind_Ok in H; destruct H as (l1a & n3 & H1a & H);
    apply bind_Ok in H; destruct H as (l1b & n4 & H1b & H);
    apply bind_Ok in H; destruct H as (l2a & n5 & H2a & H);
    apply bind_Ok in H; destruct H as (l2b & n6 & H2b & H);
    apply index_Ok in Hsj, Hsn; apply deref_Ok in H1a, H1b, H2a, H2b;
    destruct Hsj as [_ ->], Hsn as [_ ->], H1a as [_ ->], H1b as [_ ->],
             H2a as [_ ->], H2b as [_ ->];
    destruct (intersects l1a l1b l2a l2b).
  - apply bind_Ok in H; destruct H as (p & n7 & Hp & H). inversion H; subst.
    apply intersection_alloc in Hp. left. exists 0, p. auto.
  - inversion H; subst. right. auto.
  - apply bind_Ok in H; destruct H as (p & n7 & Hp & H). inversion H; subst.
    apply intersection_alloc in Hp. left. exists (S j), p. auto.
  - apply IH in H. destruct H as [(k & p & Hk & ? & ? & ?)|?]; auto.
    left. exists k, p. auto.
Qed.

Lemma cutStep_alloc (segments : list (segment num)) (i n i' : nat)
  (segments' : list (segment num)) (n' : nat) :
  cutStep segments i n = Ok (i', segments') n' ->
  (segments' = segments /\ n' = n) \/
  (exists k p, segments' = clipped segments i k p /\
     ((p = None /\ n' = n) \/ (exists q, p = Some q /\ pid q = n /\ n' = S n))) \/
  (segments' = splice (i + 1) 1 segments /\ n' = n).
Proof.
  unfold cutStep. intros H.
  apply bind_Ok in H; destruct H as (si & n1 & Hsi & H).
  apply bind_Ok in H; destruct H as (sn & n2 & Hsn & H).
  apply index_Ok in Hsi, Hsn. destruct Hsi as [_ ->], Hsn as [_ ->].
  destruct (same_object (snd si) (fst sn)).
  - inversion H; subst. auto.
  - apply searchBack_alloc in H.
    destruct H as [(k & p & _ & _ & ? & ?)|(_ & ? & ?)]; [right; left | right; right]; eauto.
Qed.

Lemma knownSlot_mono (inputs : list (segment num)) (n0 n n' : nat) (v : value num) :
  n <= n' -> knownSlot inputs n0 n v -> knownSlot inputs n0 n' v.
Proof.
  intros Hn [H|[H|(p & -> & Hp)]]; [left; exact H | right; left; exact H |].
  right. right. exists p. split; [reflexivity | lia].
Qed.

Lemma known_clipped (inputs segments : list (segment num)) (n0 n : nat) (i k : nat)
  (p : value num) :
  knownSlot inputs n0 n p ->
  Forall (fun s => knownSlot inputs n0 n (fst s) /\ knownSlot inputs n0 n (snd s)) segments ->
  Forall (fun s => knownSlot inputs n0 n (fst s) /\ knownSlot inputs n0 n (snd s))
         (clipped segments i k p).
Proof.
  intros Hp H. unfold clipped.
  assert (H' : Forall (fun s => knownSlot inputs n0 n (fst s) /\ knownSlot inputs n0 n (snd s))
                 (update (i + 1) (setStart p) (update k (setEnd p) segments))).
  { apply Forall_update; [intros s [? ?]; split; simpl; auto|].
    apply Forall_update; [intros s [? ?]; split; simpl; auto|]. exact H. }
  destruct (k <? i)%nat; [now apply Forall_splice | exact H'].
Qed.

(** The invariant of the scan: every slot is known, and a turn allocates at
    most one object. *)
Lemma cutLoop_known (inputs : list (segment num)) (n0 : nat) (fuel : nat) :
  forall (segments : list (segment num)) (i n : nat) (out : list (segment num)) (n' : nat),
    n0 <= n ->
    Forall (fun s => knownSlot inputs n0 n (fst s) /\ knownSlot inputs n0 n (snd s)) segments ->
    cutLoop fuel segments i n = Ok out n' ->
    n <= n' /\ n' - n <= length segments - i - 1 /\
    length out <= length segments /\
    Forall (fun s => knownSlot inputs n0 n' (fst s) /\ knownSlot inputs n0 n' (snd s)) out.
Proof.
  induction fuel as [|fuel IH]; intros segments i n out n' Hn HK;
    [rewrite cutLoop_0 | rewrite cutLoop_S];
    destruct (Nat.leb_spec (length segments) (i + 1)) as [Hle|Hgt];
    try (intros H0; inversion H0; subst; repeat split; auto; lia); try discriminate.
  intros H. apply bind_Ok in H. destruct H as ([i' segments'] & n1 & Hstep & H).
  pose proof (cutStep_measure _ _ _ _ _ _ Hgt Hstep) as (Hm & Hlen & _).
  assert (Hn1 : n <= n1 <= S n /\
          Forall (fun s => knownSlot inputs n0 n1 (fst s) /\ knownSlot inputs n0 n1 (snd s))
                 segments').
  { apply cutStep_alloc in Hstep.
    destruct Hstep as [[-> ->]|[(k & p & -> & Hp)|[-> ->]]].
    - split; [lia | exact HK].
    - destruct Hp as [[-> ->]|(q & -> & Hq & ->)].
      + split; [lia|]. apply known_clipped; [right; left; reflexivity | exact HK].
      + split; [lia|]. apply known_clipped.
        * right. right. exists q. split; [reflexivity | lia].
        * revert HK. apply Forall_impl. intros s [? ?].
          split; apply (knownSlot_mono inputs n0 n (S n)); auto.
    - split; [lia|]. now apply Forall_splice. }
  destruct Hn1 as [Hn1 HK1].
  destruct (IH segments' i' n1 out n' ltac:(lia) HK1 H) as (H1 & H2 & H3 & H4).
  repeat split; auto; lia.
Qed.

Lemma known_inputs (segments : list (segment num)) (n : nat) :
  Forall (fun s => knownSlot segments n n (fst s) /\ knownSlot segments n n (snd s)) segments.
Proof.
  apply Forall_forall. intros s Hs. split; left; exists s; auto.
Qed.

Lemma cutInnerAngles_Ok (fuel : nat) (segments : list (segment num)) (n : nat)
  (out : list (value num)) (n' : nat) :
  cutInnerAngles fuel segments n = Ok out n' ->
  exists s0 rest,
    cutLoop fuel segments 0 n = Ok (s0 :: rest) n' /\ out = fst s0 :: map snd (s0 :: rest).
Proof.
  unfold cutInnerAngles. intros H.
  apply bind_Ok in H. destruct H as (segs & n1 & Hloop & H).
  apply bind_Ok in H. destruct H as (s0 & n2 & Hs0 & H).
  apply index_Ok in Hs0. destruct Hs0 as [Hs0 ->].
  destruct segs as [|s rest]; [discriminate Hs0|]. simpl in Hs0. inversion Hs0; subst.
  inversion H; subst. eauto.
Qed.

(** X8. Size of the seam cutter's result: whenever it returns, the point
    sequence has at least two and at most [length segments + 1] entries, and
    the run has allocated at most [length segments - 1] objects (one per
    clip). *)
Theorem cutInnerAngles_bounds (fuel : nat) (segments : list (segment num)) (n : nat)
  (out : list (value num)) (n' : nat) :
  cutInnerAngles fuel segments n = Ok out n' ->
  2 <= length out <= length segments + 1 /\
  n <= n' <= n + (length segments - 1).
Proof.
  intros H. apply cutInnerAngles_Ok in H. destruct H as (s0 & rest & Hloop & ->).
  destruct (cutLoop_known segments n fuel segments 0 n _ _ (le_n _)
              (known_inputs segments n) Hloop) as (H1 & H2 & H3 & _).
  cbn [length map] in *. rewrite length_map. unfold segment in *. lia.
Qed.

(** X9. Provenance of the seam cutter's result: every entry of the returned
    sequence is a slot of an input segment, or [null], or an object the run
    itself allocated (an intersection point). *)
Theorem cutInnerAngles_provenance (fuel : nat) (segments : list (segment num)) (n : nat)
  (out : list (value num)) (n' : nat) :
  cutInnerAngles fuel segments n = Ok out n' ->
  Forall (knownSlot segments n n') out.
Proof.
  intros H. apply cutInnerAngles_Ok in H. destruct H as (s0 & rest & Hloop & ->).
  destruct (cutLoop_known segments n fuel segments 0 n _ _ (le_n _)
              (known_inputs segments n) Hloop) as (_ & _ & _ & HK).
  constructor.
  - inversion HK as [|? ? [Hf _] _]. exact Hf.
  - apply Forall_map. revert HK. apply Forall_impl. tauto.
Qed.

End CutterProvenance.

Lemma cutInnerAngles_bounds_witness :
  cutInnerAngles 3 backtrack_run 5 =
    Ok [Some (fpt 0 0 0); Some (fpt 5 5 0); Some (fpt 4 5 20)] 6 /\
  2 <= 3 <= length backtrack_run + 1 /\
  5 <= 6 <= 5 + (length backtrack_run - 1).
Proof.
  assert (H : cutInnerAngles 3 backtrack_run 5 =
              Ok [Some (fpt 0 0 0); Some (fpt 5 5 0); Some (fpt 4 5 20)] 6)
    by (vm_compute; reflexivity).
  split; [exact H|].
  exact (cutInnerAngles_bounds 3 backtrack_run 5 _ 6 H).
Defined.

Lemma cutInnerAngles_provenance_witness :
  cutInnerAngles 2 inner_corner 4 =
    Ok [Some (fpt 0 0 0); Some (fpt 4 8 0); Some (fpt 3 8 10)] 5 /\
  Forall (knownSlot inner_corner 4 5)
    [Some (fpt 0 0 0); Some (fpt 4 8 0); Some (fpt 3 8 10)].
Proof.
  assert (H : cutInnerAngles 2 inner_corner 4 =
              Ok [Some (fpt 0 0 0); Some (fpt 4 8 0); Some (fpt 3 8 10)] 5)
    by (vm_compute; reflexivity).
  split; [exact H|].
  exact (cutInnerAngles_provenance 2 inner_corner 4 _ 5 H).
Defined.

(** ** Objects the offsetter and the join resolver allocate *)

Section FreshObjects.

Context {num : Type} {NUM : Number num} {MATH : MathLib num}.

Lemma offsetPointLine_from_ids (distance : num) (ps : list (point num * point num)) :
  forall (acc : list (OffsetSegment num)) (n : nat),
  exists segs,
    forEachPair_from ps (offsetPair distance) acc n
      = Ok (acc ++ segs) (n + 2 * length segs) /\
    length segs <= length ps /\
    forall k s, nth_error segs k = Some s ->
      pid (fst (offset s)) = n + 2 * k /\ pid (snd (offset s)) = n + 2 * k + 1.
Proof.
  induction ps as [|[a b] ps IH]; intros acc n.
  - exists []. cbn [forEachPair_from length]. rewrite app_nil_r.
    split; [unfold ret; f_equal; lia|]. split; [lia|].
    intros [|k] s H; discriminate H.
  - rewrite forEachPair_from_cons. unfold bind.
    destruct (coincident a b) eqn:Hc.
    + rewrite offsetPair_coincident by exact Hc.
      destruct (IH acc n) as (segs & E & Hl & Hid).
      exists segs. split; [exact E|]. split; [simpl; lia | exact Hid].
    + destruct (offsetPair_distinct distance acc a b n Hc) as (s & E & _ & Ha & Hb).
      rewrite E.
      destruct (IH (acc ++ [s]) (S (S n))) as (segs & E' & Hl & Hid).
      exists (s :: segs). split; [|split].
      * rewrite E', <- app_assoc. cbn [app length]. f_equal. lia.
      * simpl. lia.
      * intros [|k] s' H; simpl in H.
        -- inversion H; subst. lia.
        -- apply Hid in H. lia.
Qed.

(** X10. The offsetter allocates two new objects for every OffsetSegment
    it returns, numbered in path order, and returns at most one segment per
    consecutive pair of the input.  Hence no two offset endpoints are the
    same object: consecutive offset segments are never linked in the sense
    of the seam cutter's identity test, even where their endpoints have the
    same position. *)
Theorem offsetPointLine_fresh_objects (points : list (point num)) (distance : num)
  (n : nat) :
  exists segs,
    offsetPointLine points distance n = Ok segs (n + 2 * length segs) /\
    length segs <= length points - 1 /\
    (forall k s, nth_error segs k = Some s ->
       pid (fst (offset s)) = n + 2 * k /\ pid (snd (offset s)) = n + 2 * k + 1) /\
    (forall k, k + 1 < length segs ->
       linked (map asSegment (map offset segs)) k = Some false).
Proof.
  unfold offsetPointLine, forEachPair.
  destruct (offsetPointLine_from_ids distance (pairs points) [] n)
    as (segs & E & Hl & Hid).
  exists segs. split; [exact E|]. split; [now rewrite <- pairs_length|].
  split; [exact Hid|].
  intros k Hk. unfold linked. rewrite !nth_error_map.
  destruct (nth_error segs k) as [s|] eqn:Ek;
    [|apply nth_error_None in Ek; lia].
  destruct (nth_error segs (k + 1)) as [s'|] eqn:Ek';
    [|apply nth_error_None in Ek'; lia].
  cbn [option_map asSegment fst snd same_object].
  destruct (Hid _ _ Ek) as [_ H1]. destruct (Hid _ _ Ek') as [H2 _].
  rewrite H1, H2. f_equal. apply Nat.eqb_neq. lia.
Qed.

Lemma arcPoints_ids (fuel : nat) :
  forall (c : point num) (d alpha e step : num) (n : nat) (pts : list (point num))
         (n' : nat),
    arcPoints fuel c d alpha e step n = Ok pts n' ->
    n' = n + length pts /\ map pid pts = seq n (length pts).
Proof.
  induction fuel as [|fuel IH]; intros c d alpha e step n pts n' H;
    rewrite arcPoints_unfold in H; destruct (nltb alpha e);
    try discriminate H;
    try (inversion H; subst; simpl; split; [lia | reflexivity]).
  apply bind_Ok in H. destruct H as (p & n1 & Hp & H).
  apply bind_Ok in H. destruct H as (rest & n2 & Hrest & H).
  unfold translatePoint, newPoint in Hp. inversion Hp; subst.
  apply IH in Hrest. destruct Hrest as [-> Hseq].
  inversion H; subst. cbn [length map pid seq]. rewrite Hseq.
  split; [lia | reflexivity].
Qed.

(** X11. In every number model [circularArc] never throws, and whenever it
    returns, it returns either nothing (allocating nothing) or a chain of
    segments that starts at the very object ending [s1]'s offset segment and
    ends at the very object starting [s2]'s; the interior points of the chain
    are the objects the call allocated, each once. *)
Theorem circularArc_chain (fuel : nat) (s1 s2 : OffsetSegment num) (d : num) (n : nat) :
  match circularArc fuel s1 s2 d n with
  | Ok segs n' =>
      exists mids,
        n' = n + length mids /\
        (forall p, In p mids -> n <= pid p < n') /\
        NoDup (map pid mids) /\
        ((segs = [] /\ mids = []) \/
         segs = pairs (snd (offset s1) :: mids ++ [fst (offset s2)]))
  | TypeError => False
  | Diverge => True
  end.
Proof.
  assert (Hnil : exists mids : list (point num),
             n = n + length mids /\
             (forall p, In p mids -> n <= pid p < n) /\
             NoDup (map pid mids) /\
             ((@nil (point num * point num) = [] /\ mids = []) \/
              [] = pairs (snd (offset s1) :: mids ++ [fst (offset s2)]))).
  { exists []. split; [simpl; lia|]. split; [intros p []|].
    split; [constructor | left; auto]. }
  unfold circularArc.
  destruct (neqb (offsetAngle s1) (offsetAngle s2)); [exact Hnil|].
  destruct (nltb (nlit 0) (nmul (getSignedAngle (offset s1) (offset s2)) d));
    [exact Hnil|].
  unfold bind.
  match goal with |- context [arcPoints ?f ?c ?dd ?a ?e ?st n] =>
    pose proof (arcPoints_not_TypeError f c dd a e st n) as HT;
    destruct (arcPoints f c dd a e st n) as [arc n'| |] eqn:E end;
    [|congruence|exact I].
  apply arcPoints_ids in E. destruct E as [-> Hseq].
  assert (Hin : forall p, In p arc -> n <= pid p < n + length arc).
  { intros p Hp. apply (in_map pid) in Hp. rewrite Hseq in Hp.
    apply in_seq in Hp. lia. }
  assert (Hnd : NoDup (map pid arc)) by (rewrite Hseq; apply seq_NoDup).
  unfold ret. destruct (nltb (nlit 0) d).
  - exists (rev arc). rewrite length_rev. split; [reflexivity|].
    split; [intros p Hp; apply Hin; now apply in_rev|].
    split; [rewrite map_rev; now apply NoDup_rev|].
    right. rewrite rev_app_distr. reflexivity.
  - exists arc. split; [reflexivity|]. split; [exact Hin|].
    split; [exact Hnd|]. right. reflexivity.
Qed.

(** X12. A path of two points: when the two points are identical (in
    position) the pipeline returns the empty sequence; otherwise it returns,
    for any fuel, exactly the two translated endpoints, as two new
    objects. *)
Theorem offsetPoints_two_points (fuel : nat) (a b : point num) (dist : num) (n : nat) :
  if coincident a b then offsetPoints fuel [a; b] dist n = Ok [] n
  else exists s,
         offsetOf dist (a, b) s /\
         pid (fst (offset s)) = n /\ pid (snd (offset s)) = S n /\
         offsetPoints fuel [a; b] dist n
           = Ok [Some (fst (offset s)); Some (snd (offset s))] (S (S n)).
Proof.
  unfold offsetPoints, offsetPointLine, forEachPair. cbn [pairs].
  rewrite forEachPair_from_cons. cbn [forEachPair_from].
  destruct (coincident a b) eqn:Hc.
  - unfold bind. rewrite offsetPair_coincident by exact Hc. reflexivity.
  - destruct (offsetPair_distinct dist [] a b n Hc) as (s & E & Hs & Ha & Hb).
    exists s. split; [exact Hs|]. split; [exact Ha|]. split; [exact Hb|].
    unfold bind. rewrite E. cbn [app ret].
    unfold joinLineSegments, joinLineSegmentsWith, forEachPair. cbn [pairs forEachPair_from].
    unfold bind, ret. cbn [map]. unfold cutInnerAngles, bind.
    destruct fuel; reflexivity.
Qed.

End FreshObjects.

(** ** The host hook *)

Section HostFacts.

Context {num : Type} {NUM : Number num} {MATH : MathLib num}.

Variable LatLng : Type.
Variable latLngToLayerPoint : LatLng -> num * num.
Variable Bounds : Type.
Variable extend : Bounds -> num -> num -> Bounds.
Variable simplify : list (point num) -> list (point num).

Lemma latlngs_induction (P : latlngs LatLng -> Prop) :
  (forall ring, P (Flat ring)) ->
  (forall parts, Forall P parts -> P (Nested parts)) ->
  forall t, P t.
Proof.
  intros HF HN. fix IH 1. intros [ring|parts]; [apply HF|].
  apply HN. induction parts as [|t parts IHparts]; constructor;
    [apply IH | exact IHparts].
Qed.

Lemma forEach_cons {A S : Type} (f : A -> S -> JS S) (a : A) (l : list A) (st : S) :
  forEach f (a :: l) st = (st' <- f a st ;; forEach f l st').
Proof. reflexivity. Qed.

Lemma forEach_app {A S : Type} (f : A -> S -> JS S) (l1 l2 : list A) :
  forall (st : S) (n : nat),
    forEach f (l1 ++ l2) st n = (st' <- forEach f l1 st ;; forEach f l2 st') n.
Proof.
  induction l1 as [|a l1 IH]; intros st n; [reflexivity|].
  cbn [app]. rewrite !forEach_cons. unfold bind.
  destruct (f a st n) as [st1 n1| |]; [|reflexivity|reflexivity].
  rewrite IH. reflexivity.
Qed.

(** The hook treats its argument as the sequence of its non-empty flat
    rings. *)
Lemma projectLatlngs_rings (fuel : nat) (offset : option num) (t : latlngs LatLng) :
  forall (st : hostState num Bounds) (n : nat),
    _projectLatlngs latLngToLayerPoint extend simplify fuel offset t st n =
    forEach (projectRing latLngToLayerPoint extend simplify fuel offset) (rings t) st n.
Proof.
  induction t as [ring|parts IH] using latlngs_induction; intros st n.
  - destruct ring as [|ll lls]; [reflexivity|].
    cbn [_projectLatlngs rings]. rewrite forEach_cons. unfold bind.
    destruct (projectRing _ _ _ _ _ _ _ _) as [st1 n1| |]; reflexivity.
  - cbn [_projectLatlngs rings]. revert st n.
    induction IH as [|t parts Ht _ IHparts]; intros st n; [reflexivity|].
    cbn [flat_map]. rewrite forEach_cons, forEach_app. unfold bind.
    rewrite Ht.
    destruct (forEach _ (rings t) st n) as [st1 n1| |]; [|reflexivity|reflexivity].
    apply IHparts.
Qed.

Lemma forEach_projectOne (lls : list LatLng) :
  forall (ring : list (point num)) (bounds : option Bounds) (n : nat),
  exists pts,
    forEach (projectOne latLngToLayerPoint extend) lls (ring, bounds) n
      = Ok (ring ++ pts, extendAll latLngToLayerPoint extend bounds lls)
           (n + length lls) /\
    map xy pts = map latLngToLayerPoint lls /\
    length pts = length lls.
Proof.
  induction lls as [|ll lls IH]; intros ring bounds n.
  - exists []. cbn. rewrite app_nil_r. repeat split. unfold ret. f_equal. lia.
  - rewrite forEach_cons. unfold bind at 1. unfold projectOne at 1.
    unfold bind, newPoint, ret. cbn [fst snd px py].
    destruct (IH (ring ++ [mkPoint n (fst (latLngToLayerPoint ll))
                                     (snd (latLngToLayerPoint ll))])
                 (option_map (fun b => extend b (fst (latLngToLayerPoint ll))
                                                (snd (latLngToLayerPoint ll))) bounds)
                 (S n)) as (pts & E & Hxy & Hlen).
    exists (mkPoint n (fst (latLngToLayerPoint ll)) (snd (latLngToLayerPoint ll)) :: pts).
    split; [|split].
    + rewrite E. rewrite <- app_assoc. cbn [app length extendAll fold_left].
      f_equal. lia.
    + cbn [map]. rewrite Hxy. unfold xy. cbn [px py].
      now destruct (latLngToLayerPoint ll).
    + cbn [length]. now rewrite Hlen.
Qed.

Lemma copyRing_points (pts : list (point num)) :
  forall n, exists pts',
    copyRing (map Some pts) n = Ok pts' (n + length pts) /\
    map xy pts' = map xy pts.
Proof.
  induction pts as [|p pts IH]; intros n.
  - exists []. cbn. split; [unfold ret; f_equal; lia | reflexivity].
  - destruct (IH (S n)) as (pts' & E & Hxy).
    exists (mkPoint n (px p) (py p) :: pts'). split.
    + cbn [map copyRing]. unfold bind, deref, ret, newPoint. rewrite E.
      cbn [length]. f_equal. lia.
    + cbn [map]. now rewrite Hxy.
Qed.

Lemma projectRing_without_offset (fuel : nat) (offset : option num)
  (lls : list LatLng) (st : hostState num Bounds) (n : nat) :
  offsetIsSet offset = None ->
  exists pts,
    projectRing latLngToLayerPoint extend simplify fuel offset lls st n
      = Ok (mkHostState (result st ++ [pts])
              (extendAll latLngToLayerPoint extend (projectedBounds st) lls))
           (n + 2 * length lls) /\
    map xy pts = map latLngToLayerPoint lls.
Proof.
  intros Hoff. unfold projectRing. rewrite Hoff.
  destruct (forEach_projectOne lls [] (projectedBounds st) n) as (ring & E & Hxy & Hlen).
  unfold bind at 1. rewrite E. cbn [app].
  unfold bind at 1. unfold ret at 1.
  destruct (copyRing_points ring (n + length lls)) as (pts & Ec & Hxy').
  exists pts. split.
  - unfold bind. rewrite Ec. unfold ret. f_equal. lia.
  - now rewrite Hxy'.
Qed.

Lemma extendAll_app (bounds : option Bounds) (l1 l2 : list LatLng) :
  extendAll latLngToLayerPoint extend bounds (l1 ++ l2) =
  extendAll latLngToLayerPoint extend
    (extendAll latLngToLayerPoint extend bounds l1) l2.
Proof. unfold extendAll. apply fold_left_app. Qed.

(** X18. Without an offset ([this.options.offset] undefined, 0 or NaN) the
    hook never throws, in any number model: for every non-empty flat ring of
    its argument, in order and however deeply nested, it appends to [result]
    one ring of new points at the projected positions, and it extends
    [projectedBounds] with every projected position.  Empty arrays add
    nothing. *)
Theorem projectLatlngs_without_offset (fuel : nat) (offset : option num)
  (t : latlngs LatLng) (st : hostState num Bounds) (n : nat) :
  offsetIsSet offset = None ->
  exists new,
    _projectLatlngs latLngToLayerPoint extend simplify fuel offset t st n
      = Ok (mkHostState (result st ++ new)
              (extendAll latLngToLayerPoint extend (projectedBounds st)
                 (concat (rings t))))
           (n + 2 * length (concat (rings t))) /\
    map (map xy) new = map (map latLngToLayerPoint) (rings t).
Proof.
  intros Hoff. rewrite projectLatlngs_rings.
  generalize (rings t) as rs. intros rs. revert st n.
  induction rs as [|lls rs IH]; intros st n.
  - exists []. cbn. rewrite app_nil_r. split; [|reflexivity].
    unfold ret. destruct st. cbn. f_equal. lia.
  - destruct (projectRing_without_offset fuel offset lls st n Hoff) as (pts & E & Hxy).
    rewrite forEach_cons. unfold bind. rewrite E.
    destruct (IH (mkHostState (result st ++ [pts])
                    (extendAll latLngToLayerPoint extend (projectedBounds st) lls))
                 (n + 2 * length lls)) as (new & E' & Hnew).
    exists (pts :: new). split.
    + rewrite E'. cbn [result projectedBounds concat].
      rewrite <- app_assoc, extendAll_app, length_app. cbn [app]. f_equal. lia.
    + cbn [map]. now rewrite Hxy, Hnew.
Qed.

End HostFacts.


Lemma zero_offset_is_not_set : offsetIsSet (Some (float_lit 0)) = None.
Proof. reflexivity. Qed.

Lemma projectLatlngs_without_offset_witness :
  offsetIsSet (Some (float_lit 0)) = None /\
  exists new,
    _projectLatlngs exampleProject exampleExtend exampleSimplify 0 (Some (float_lit 0))
      exampleLatlngs exampleState 0
      = Ok (mkHostState (result exampleState ++ new)
              (extendAll exampleProject exampleExtend (projectedBounds exampleState)
                 (concat (rings exampleLatlngs))))
           (0 + 2 * length (concat (rings exampleLatlngs))) /\
    map (map xy) new = map (map exampleProject) (rings exampleLatlngs).
Proof.
  split; [exact zero_offset_is_not_set|].
  exact (projectLatlngs_without_offset (Z * Z) exampleProject (list (float * float))
           exampleExtend exampleSimplify 0 (Some (float_lit 0)) exampleLatlngs
           exampleState 0 zero_offset_is_not_set).
Defined.
(** ** The host hook with an offset *)

Section HostBounds.

Context {num : Type} {NUM : Number num} {MATH : MathLib num}.

Variable LatLng : Type.
Variable latLngToLayerPoint : LatLng -> num * num.
Variable Bounds : Type.
Variable extend : Bounds -> num -> num -> Bounds.
Variable simplify : list (point num) -> list (point num).

Lemma projectRing_bounds (fuel : nat) (offset : option num) (lls : list LatLng)
  (st st' : hostState num Bounds) (n n' : nat) :
  projectRing latLngToLayerPoint extend simplify fuel offset lls st n = Ok st' n' ->
  exists pts,
    st' = mkHostState (result st ++ [pts])
            (extendAll latLngToLayerPoint extend (projectedBounds st) lls).
Proof.
  unfold projectRing. intros H.
  destruct (forEach_projectOne LatLng latLngToLayerPoint Bounds extend lls []
              (projectedBounds st) n) as (ring & E & _ & _).
  unfold bind at 1 in H. rewrite E in H. cbn [app] in H.
  apply bind_Ok in H. destruct H as (ring' & n1 & _ & H).
  apply bind_Ok in H. destruct H as (pts & n2 & _ & H).
  inversion H; subst. eauto.
Qed.

(** X24. In any number model, with or without an offset: whenever the hook
    returns, it has appended to [result] exactly one ring for each non-empty
    flat ring of its argument, and it has extended [projectedBounds] with
    the projected positions of the path itself, in order.  The offset points
    never enter the bounds. *)
Theorem projectLatlngs_bounds (fuel : nat) (offset : option num) (t : latlngs LatLng)
  (st st' : hostState num Bounds) (n n' : nat) :
  _projectLatlngs latLngToLayerPoint extend simplify fuel offset t st n = Ok st' n' ->
  projectedBounds st' =
    extendAll latLngToLayerPoint extend (projectedBounds st) (concat (rings t)) /\
  exists new, result st' = result st ++ new /\ length new = length (rings t).
Proof.
  rewrite projectLatlngs_rings.
  generalize (rings t) as rs. intros rs. revert st n.
  induction rs as [|lls rs IH]; intros st n H.
  - cbn in H. inversion H; subst. cbn. split; [reflexivity|].
    exists []. now rewrite app_nil_r.
  - rewrite forEach_cons in H. apply bind_Ok in H.
    destruct H as (st1 & n1 & H1 & H).
    apply projectRing_bounds in H1. destruct H1 as (pts & ->).
    apply IH in H. cbn [result projectedBounds] in H.
    destruct H as (Hb & new & Hr & Hl). split.
    + rewrite Hb. cbn [concat]. now rewrite extendAll_app.
    + exists (pts :: new). split; [now rewrite Hr, <- app_assoc|].
      cbn [length]. now rewrite Hl.
Qed.

End HostBounds.

Lemma projectLatlngs_bounds_witness :
  exists st' n',
    _projectLatlngs exampleProject exampleExtend exampleSimplify 16 (Some (float_lit 5))
      exampleLatlngs exampleState 0 = Ok st' n' /\
    projectedBounds st' =
      extendAll exampleProject exampleExtend (projectedBounds exampleState)
        (concat (rings exampleLatlngs)) /\
    exists new,
      result st' = result exampleState ++ new /\
      length new = length (rings exampleLatlngs).
Proof.
  eexists _, _. split; [vm_compute; reflexivity|].
  eapply (projectLatlngs_bounds (Z * Z) exampleProject (list (float * float))
            exampleExtend exampleSimplify 16 (Some (float_lit 5)) exampleLatlngs
            exampleState).
  vm_compute; reflexivity.
Defined.

(** With the offset 5 the ring is offset by 5, and the bounds hold the
    positions of the path. *)
Example projectLatlngs_offset_run :
  _projectLatlngs exampleProject exampleExtend exampleSimplify 16 (Some (float_lit 5))
    exampleLatlngs exampleState 0 =
  Ok (mkHostState
        [[mkPoint 4 0x1.60fafbfd97309p-52 5; mkPoint 5 10 5]%float]
        (Some [(0, 0); (10, 0)]%float))
     6.
Proof. vm_compute. reflexivity. Qed.

(** ** Shared arrays and the list of their contents *)

Section SharedAgreement.

Context {num : Type} {NUM : Number num}.

(** X22. In any number model, when no array stands at two indices of
    [segments], [cutInnerAngles] ends as it does on the list of the arrays'
    contents: the same throw, or the same result and allocations; and after
    the scan the arrays left on the heap are the segments the list holds. *)
Theorem cutInnerAngles_distinct_arrays (fuel : nat) (h : heap num) (refs : list nat)
  (segs : list (segment num)) (n : nat) :
  NoDup refs ->
  standsFor h refs segs ->
  cutInnerAnglesShared fuel h refs n = cutInnerAngles fuel segs n /\
  sameRun (fun a b => standsFor (snd a) (fst a) b)
          (cutLoopShared fuel h refs 0 n) (cutLoop fuel segs 0 n).
Proof.
  intros Hnd Hst. split.
  - now apply cutInnerAnglesShared_list.
  - now apply cutLoop_shared.
Qed.

End SharedAgreement.

Lemma cutInnerAngles_distinct_arrays_witness :
  NoDup [0; 1; 2] /\
  standsFor backtrack_run [0; 1; 2] backtrack_run /\
  cutInnerAnglesShared 3 backtrack_run [0; 1; 2] 5 = cutInnerAngles 3 backtrack_run 5 /\
  sameRun (fun a b => standsFor (snd a) (fst a) b)
          (cutLoopShared 3 backtrack_run [0; 1; 2] 0 5) (cutLoop 3 backtrack_run 0 5).
Proof.
  assert (Hnd : NoDup [0; 1; 2]).
  { repeat constructor; simpl; intuition discriminate. }
  assert (Hst : standsFor backtrack_run [0; 1; 2] backtrack_run).
  { repeat constructor. }
  split; [exact Hnd|]. split; [exact Hst|].
  exact (cutInnerAngles_distinct_arrays 3 backtrack_run [0; 1; 2] backtrack_run 5 Hnd Hst).
Defined.

(** ** Two segments through the whole pipeline *)

Section TwoSegments.

Context {num : Type} {NUM : Number num} {MATH : MathLib num}.

(** X23. In any number model and at any distance: for a path of three
    points, neither pair coincident, whose two headings are [===] (a
    straight continuation, as the code sees it), and whose two offset
    segments do not properly intersect, the pipeline returns the two offset
    endpoints of the first segment only.  The second segment is removed. *)
Theorem offsetPoints_straight_continuation (fuel : nat) (a b c : point num) (dist : num)
  (n : nat) :
  coincident a b = false ->
  coincident b c = false ->
  neqb (offsetAngle (offsetSegmentOf a b dist n))
       (offsetAngle (offsetSegmentOf b c dist (n + 2))) = true ->
  intersects (fst (offset (offsetSegmentOf a b dist n)))
             (snd (offset (offsetSegmentOf a b dist n)))
             (fst (offset (offsetSegmentOf b c dist (n + 2))))
             (snd (offset (offsetSegmentOf b c dist (n + 2)))) = false ->
  offsetPoints (S fuel) [a; b; c] dist n =
  Ok [Some (fst (offset (offsetSegmentOf a b dist n)));
      Some (snd (offset (offsetSegmentOf a b dist n)))] (n + 4).
Proof.
  intros Hab Hbc Hh Hx. unfold offsetPoints, bind.
  rewrite (offsetPointLine_three a b c dist n Hab Hbc).
  rewrite joinLineSegments_two_no_arc by (unfold emitsNothing; now rewrite Hh).
  exact (cutInnerAngles_two_drop fuel _ _ _ _ (n + 4)
           (consecutive_offsets_unlinked a b c dist n) Hx).
Qed.

(** X26. In any number model: for a path of three points, neither pair
    coincident, whose join gets no arc and whose two offset segments properly
    intersect, the pipeline returns the start of the first offset segment,
    what [intersection] returns for the two offset segments, and the end of
    the second offset segment. *)
Theorem offsetPoints_inner_turn (fuel : nat) (a b c : point num) (dist : num) (n : nat) :
  coincident a b = false ->
  coincident b c = false ->
  emitsNothing (offsetSegmentOf a b dist n) (offsetSegmentOf b c dist (n + 2)) dist = true ->
  intersects (fst (offset (offsetSegmentOf a b dist n)))
             (snd (offset (offsetSegmentOf a b dist n)))
             (fst (offset (offsetSegmentOf b c dist (n + 2))))
             (snd (offset (offsetSegmentOf b c dist (n + 2)))) = true ->
  offsetPoints (S fuel) [a; b; c] dist n =
  (p <- intersection (fst (offset (offsetSegmentOf a b dist n)))
                     (snd (offset (offsetSegmentOf a b dist n)))
                     (fst (offset (offsetSegmentOf b c dist (n + 2))))
                     (snd (offset (offsetSegmentOf b c dist (n + 2)))) ;;
   ret [Some (fst (offset (offsetSegmentOf a b dist n))); p;
        Some (snd (offset (offsetSegmentOf b c dist (n + 2))))]) (n + 4).
Proof.
  intros Hab Hbc He Hx. unfold offsetPoints. unfold bind at 1.
  rewrite (offsetPointLine_three a b c dist n Hab Hbc).
  rewrite joinLineSegments_two_no_arc by exact He.
  exact (cutInnerAngles_two_clip fuel _ _ _ _ (n + 4)
           (consecutive_offsets_unlinked a b c dist n) Hx).
Qed.

(** X25. In any number model [intersects] does not depend on which of the
    two segments comes first. *)
Theorem intersects_swap (l1a l1b l2a l2b : point num) :
  intersects l1a l1b l2a l2b = intersects l2a l2b l1a l1b.
Proof. unfold intersects. apply andb_comm. Qed.

End TwoSegments.

Lemma offsetPoints_straight_continuation_witness :
  offsetPoints 1 straight_path (float_lit 5) 3 =
  Ok [Some (fst (offset (offsetSegmentOf (fpt 0 0 0) (fpt 1 1 0) (float_lit 5) 3)));
      Some (snd (offset (offsetSegmentOf (fpt 0 0 0) (fpt 1 1 0) (float_lit 5) 3)))]
     (3 + 4).
Proof.
  apply (offsetPoints_straight_continuation 0 (fpt 0 0 0) (fpt 1 1 0) (fpt 2 2 0)
           (float_lit 5) 3); vm_compute; reflexivity.
Defined.

(** The path (0, 0), (1, 0), (2, 0) offset by 5
    ends at (1, 5). *)
Example offsetPoints_straight_path_5 :
  offsetPoints 16 straight_path (float_lit 5) 3 =
  Ok [Some (mkPoint 3 0x1.60fafbfd97309p-52 5); Some (mkPoint 4 0x1.0000000000001p+0 5)]%float
     7.
Proof. vm_compute. reflexivity. Qed.

Lemma offsetPoints_inner_turn_witness :
  offsetPoints 1 corner_path (float_lit 5) 3 =
  Ok [Some (mkPoint 3 0x1.60fafbfd97309p-52 5)%float; Some (fpt 7 5 5);
      Some (mkPoint 6 5 10)%float] 8.
Proof.
  etransitivity.
  - apply (offsetPoints_inner_turn 0 (fpt 0 0 0) (fpt 1 10 0) (fpt 2 10 10)
             (float_lit 5) 3); vm_compute; reflexivity.
  - vm_compute; reflexivity.
Defined.

(** On binary64 reversing one segment can change the answer of
    [intersects]: the rounded signed areas of a reversed segment are not the
    negated ones. *)
Example intersects_reversed_float :
  intersects (mkPoint 0 0x1.6666666666666p-1 0x1.999999999999ap-3)%float
             (mkPoint 1 0x1.999999999999ap-4 0x1.999999999999ap-1)%float
             (mkPoint 2 0x1p-1 0x1.999999999999ap-2)%float
             (mkPoint 3 0x1.999999999999ap-4 0x1.999999999999ap-4)%float = false /\
  intersects (mkPoint 1 0x1.999999999999ap-4 0x1.999999999999ap-1)%float
             (mkPoint 0 0x1.6666666666666p-1 0x1.999999999999ap-3)%float
             (mkPoint 2 0x1p-1 0x1.999999999999ap-2)%float
             (mkPoint 3 0x1.999999999999ap-4 0x1.999999999999ap-4)%float = true.
Proof. vm_compute. split; reflexivity. Qed.

